(** * A single-node proof-of-work ledger

    Shallow embedding of [src/python.py]: the [Blockchain] class (block
    construction, hash chaining, proof-of-work search and validation, the
    transaction pool, persistence of blocks) and the [mine] handler.

    - Python objects that the program mutates or shares (the block dicts,
      the lists of transactions) live in an explicit object store and are
      named by references; immutable values (ints, strings, transaction
      dicts) are plain values.
    - The methods are computations in a state-and-exception monad; an
      uncaught exception keeps the state it was raised in.
    - [hashlib.sha256], [json.dumps(.., sort_keys=True)] and [str.encode]
      are functions that compute; floats are a parameter.
    - [time()] is an argument [now] of the operations that read the clock.
    - The loop of [proof_of_work] has no bound in the program; here it takes
      a number of iterations, and reports when they do not suffice.
    - The table [blocks] of [blockchain.db] is a finite map from the primary
      key to the other columns. An [INSERT] fails as [sqlite3] makes it fail
      on the values it is given: a value that cannot be bound to a parameter
      (an integer outside the 64 bits of an SQLite [INTEGER], a value of a
      type [sqlite3] does not adapt, a string with a surrogate), or a key
      the table holds already. Failures of the file system are left out. *)

From stdpp Require Import gmap strings list fin_maps pretty sorting.
From Stdlib Require Import Ascii.

Local Open Scope Z_scope.
Set Warnings "-register-all".

(** ** Python strings and bytes *)

(** A Python [str] is a sequence of Unicode code points; [bytes] is a
    sequence of octets. *)
Abbreviation pystr := (list N).
Abbreviation pybytes := (list N).

(** The [str] whose characters are those of a literal. *)
Fixpoint str (s : string) : pystr :=
  match s with
  | EmptyString => []
  | String c s' => N_of_ascii c :: str s'
  end.
Arguments str : simpl never.

(** [str.encode()]: UTF-8. *)
Definition utf8_char (c : N) : pybytes :=
  if (c <? 0x80)%N then [c]
  else if (c <? 0x800)%N then
    [N.lor 0xC0 (N.shiftr c 6); N.lor 0x80 (N.land c 0x3F)]
  else if (c <? 0x10000)%N then
    [N.lor 0xE0 (N.shiftr c 12);
     N.lor 0x80 (N.land (N.shiftr c 6) 0x3F);
     N.lor 0x80 (N.land c 0x3F)]
  else
    [N.lor 0xF0 (N.shiftr c 18);
     N.lor 0x80 (N.land (N.shiftr c 12) 0x3F);
     N.lor 0x80 (N.land (N.shiftr c 6) 0x3F);
     N.lor 0x80 (N.land c 0x3F)].

Definition encode (s : pystr) : pybytes := s ≫= utf8_char.

(** [str(n)] and [f'{n}'] for an [int]: decimal digits, with a leading
    minus sign for a negative number. *)
Definition str_of_int (z : Z) : pystr := str (pretty z).

Definition hex_digit (d : N) : N :=
  if (d <? 10)%N then (48 + d)%N else (87 + d)%N.

(** ** [hashlib.sha256] (FIPS 180-4), on 32-bit words held in [N] *)

Module SHA256.

Definition mask32 : N := 0xFFFFFFFF.
Definition add32 (x y : N) : N := ((x + y) mod 0x100000000)%N.
Definition rotr (n x : N) : N :=
  N.lor (N.shiftr x n) (N.land (N.shiftl x (32 - n)) mask32).
Definition shr (n x : N) : N := N.shiftr x n.

Definition Ch (x y z : N) : N :=
  N.lxor (N.land x y) (N.land (N.lxor x mask32) z).
Definition Maj (x y z : N) : N :=
  N.lxor (N.land x y) (N.lxor (N.land x z) (N.land y z)).
Definition Sigma0 (x : N) : N := N.lxor (rotr 2 x) (N.lxor (rotr 13 x) (rotr 22 x)).
Definition Sigma1 (x : N) : N := N.lxor (rotr 6 x) (N.lxor (rotr 11 x) (rotr 25 x)).
Definition sigma0 (x : N) : N := N.lxor (rotr 7 x) (N.lxor (rotr 18 x) (shr 3 x)).
Definition sigma1 (x : N) : N := N.lxor (rotr 17 x) (N.lxor (rotr 19 x) (shr 10 x)).

(** The constants are the first 32 bits of the fractional parts of the cube
    roots (for [K]) and of the square roots (for [H0]) of the first primes. *)
Definition is_prime (n : N) : bool :=
  forallb (λ d, negb (n mod d =? 0)%N) (N.of_nat <$> seq 2 (N.to_nat n - 2)).

Definition primes : list N :=
  filter (λ n, is_prime n = true) (N.of_nat <$> seq 2 310).

(** The integer cube root of a number below [2^108], bit by bit. *)
Definition cube_root (n : N) : N :=
  foldl (λ r b, let r' := (r + N.shiftl 1 (N.of_nat b))%N in
                if (r' * r' * r' <=? n)%N then r' else r)
        0%N (reverse (seq 0 36)).

Definition K : list N :=
  Eval vm_compute in
    (λ p, N.land (cube_root (N.shiftl p 96)) mask32) <$> take 64 primes.

Definition H0 : list N :=
  Eval vm_compute in
    (λ p, N.land (N.sqrt (N.shiftl p 64)) mask32) <$> take 8 primes.

(** Big-endian encoding of [x] on [n] octets. *)
Fixpoint be_bytes (n : nat) (x : N) : list N :=
  match n with
  | O => []
  | S n' => N.land (N.shiftr x (8 * N.of_nat n')) 0xFF :: be_bytes n' x
  end.

Definition be_word (bs : list N) : N :=
  foldl (λ acc b, (acc * 256 + b)%N) 0%N bs.

(** The message followed by the bit 1, zeros up to 56 modulo 64 octets,
    and the bit length on 64 bits. *)
Definition pad (msg : pybytes) : pybytes :=
  let len := length msg in
  let zeros := ((55 + 64 - len `mod` 64) `mod` 64)%nat in
  msg ++ [0x80%N] ++ replicate zeros 0%N ++ be_bytes 8 (8 * N.of_nat len).

Fixpoint chunks {A} (fuel size : nat) (l : list A) : list (list A) :=
  match fuel with
  | O => []
  | S fuel' =>
      match l with
      | [] => []
      | _ => take size l :: chunks fuel' size (drop size l)
      end
  end.

(** The message schedule, most recent word first. *)
Fixpoint extend (n : nat) (w : list N) : list N :=
  match n with
  | O => w
  | S n' =>
      let wt := add32 (add32 (sigma1 (w !!! 1%nat)) (w !!! 6%nat))
                      (add32 (sigma0 (w !!! 14%nat)) (w !!! 15%nat)) in
      extend n' (wt :: w)
  end.

Definition schedule (block : list N) : list N :=
  reverse (extend 48 (reverse (be_word <$> chunks 16 4 block))).

Definition round (st : list N) (kw : N * N) : list N :=
  match st with
  | [a; b; c; d; e; f; g; h] =>
      let t1 := add32 (add32 (add32 h (Sigma1 e)) (add32 (Ch e f g) kw.1)) kw.2 in
      let t2 := add32 (Sigma0 a) (Maj a b c) in
      [add32 t1 t2; a; b; c; add32 d t1; e; f; g]
  | _ => st
  end.

Definition compress (h : list N) (block : list N) : list N :=
  zip_with add32 h (foldl round h (zip K (schedule block))).

Definition digest_words (msg : pybytes) : list N :=
  let p := pad msg in
  foldl compress H0 (chunks (length p) 64 p).

Definition digest (msg : pybytes) : pybytes :=
  digest_words msg ≫= be_bytes 4.

End SHA256.

(** [hashlib.sha256(data).hexdigest()]: 64 lowercase hexadecimal digits. *)
Definition sha256_hexdigest (data : pybytes) : pystr :=
  SHA256.digest data ≫= (λ b, [hex_digit (N.shiftr b 4); hex_digit (N.land b 0xF)]).

(** ** Python values *)

(** Python floats are IEEE doubles; the program computes nothing with
    them: it stores a timestamp, prints it and tests truth values. The
    development is parametric in the type of floats and in these two
    operations. *)
Class PyFloat := {
  pyfloat : Type;
  (** the text [json.dumps] emits for a float *)
  float_repr : pyfloat → pystr;
  (** [bool(x)]: false exactly for a zero *)
  float_bool : pyfloat → bool;
  float_inhabited :: Inhabited pyfloat;
}.

(** Floats that are whole numbers of magnitude below [10^16], given by that
    number: [repr(1700000000.0)] is ["1700000000.0"]. *)
Definition whole_floats : PyFloat :=
  {| pyfloat := Z;
     float_repr := λ n, str_of_int n ++ str ".0";
     float_bool := λ n, negb (n =? 0);
     float_inhabited := populate 0 |}.

(** The float [n.0] of [whole_floats]. *)
Definition seconds (n : Z) : @pyfloat whole_floats := n.

(** References to objects: positions in the object store. *)
Abbreviation ref := nat (only parsing).

Section Ledger.
Context {floats : PyFloat}.

(** The values the program handles: what [request.get_json()] can return,
    and what a block holds. A [dict] is the list of its items in insertion
    order; its keys are pairwise distinct. *)
Inductive pyval :=
  | PNone
  | PBool (b : bool)
  | PInt (z : Z)
  | PFloat (f : pyfloat)
  | PStr (s : pystr)
  | PList (l : list pyval)
  | PDict (d : list (pystr * pyval)).

(** [bool(v)] *)
Definition truthy (v : pyval) : bool :=
  match v with
  | PNone => false
  | PBool b => b
  | PInt z => negb (z =? 0)
  | PFloat f => float_bool f
  | PStr s => match s with [] => false | _ => true end
  | PList l => match l with [] => false | _ => true end
  | PDict d => match d with [] => false | _ => true end
  end.

(** ** [json.dumps(v, sort_keys=True)] *)

Definition hex4 (n : N) : pystr :=
  [hex_digit (N.land (N.shiftr n 12) 0xF); hex_digit (N.land (N.shiftr n 8) 0xF);
   hex_digit (N.land (N.shiftr n 4) 0xF); hex_digit (N.land n 0xF)].

(** One character of a string literal under [ensure_ascii]: backslash (92)
    and the double quote (34) are escaped, control characters have their
    short form or [\uXXXX], printable ASCII stands for itself, and the rest
    is [\uXXXX], as a surrogate pair above the basic plane. *)
Definition escape_char (c : N) : pystr :=
  if (c =? 92)%N then [92; 92]%N
  else if (c =? 34)%N then [92; 34]%N
  else if (c =? 8)%N then [92; 98]%N
  else if (c =? 12)%N then [92; 102]%N
  else if (c =? 10)%N then [92; 110]%N
  else if (c =? 13)%N then [92; 114]%N
  else if (c =? 9)%N then [92; 116]%N
  else if ((32 <=? c) && (c <=? 126))%N then [c]
  else if (c <? 0x10000)%N then [92; 117]%N ++ hex4 c
  else
    let n := (c - 0x10000)%N in
    [92; 117]%N ++ hex4 (N.lor 0xD800 (N.land (N.shiftr n 10) 0x3FF)) ++
    [92; 117]%N ++ hex4 (N.lor 0xDC00 (N.land n 0x3FF)).

Definition py_encode_basestring_ascii (s : pystr) : pystr :=
  [34%N] ++ (s ≫= escape_char) ++ [34%N].

(** [sep.join(l)] *)
Fixpoint join (sep : pystr) (l : list pystr) : pystr :=
  match l with
  | [] => []
  | [x] => x
  | x :: l' => x ++ sep ++ join sep l'
  end.

(** Order of [str]: lexicographic on code points. *)
Fixpoint pystr_leb (s t : pystr) : bool :=
  match s, t with
  | [], _ => true
  | _ :: _, [] => false
  | a :: s', b :: t' =>
      if (a <? b)%N then true
      else if (b <? a)%N then false
      else pystr_leb s' t'
  end.

(** [sorted(d.items())]: the keys of a dict are distinct, so the order of
    two items is that of their keys. *)
Definition item_le {A} (x y : pystr * A) : Prop := pystr_leb x.1 y.1 = true.

#[global] Instance item_le_dec {A} (x y : pystr * A) : Decision (item_le x y).
Proof. unfold item_le. apply _. Defined.

Definition sort_items {A} (d : list (pystr * A)) : list (pystr * A) :=
  merge_sort item_le d.

Definition dump_item (kv : pystr * pystr) : pystr :=
  py_encode_basestring_ascii kv.1 ++ str ": " ++ kv.2.

Fixpoint json_dumps (v : pyval) : pystr :=
  match v with
  | PNone => str "null"
  | PBool b => if b then str "true" else str "false"
  | PInt z => str_of_int z
  | PFloat f => float_repr f
  | PStr s => py_encode_basestring_ascii s
  | PList l => str "[" ++ join (str ", ") (json_dumps <$> l) ++ str "]"
  | PDict d =>
      str "{" ++
      join (str ", ")
        (dump_item <$> sort_items ((λ '(k, v), (k, json_dumps v)) <$> d)) ++
      str "}"
  end.

(** ** The ledger: objects and state *)

(** A transaction dict, with the keys [sender], [recipient], [amount]. *)
Record Transaction := {
  sender : pyval;
  recipient : pyval;
  amount : pyval;
}.

(** A block dict. The field [transactions] refers to a list object. *)
Record Block := {
  index : Z;
  timestamp : pyfloat;
  transactions : ref;
  proof : Z;
  previous_hash : pyval;
}.

(** A row of the table [blocks], without its key [block_index]. *)
Record Row := {
  row_timestamp : pyfloat;
  row_proof : Z;
  row_previous_hash : pyval;
}.

(** The state of the process and of [blockchain.db].
    - [blocks] and [lists] are the object store: the block dicts and the
      list objects, each named by its position. A new object is added at
      the end; an object is updated in place.
    - [chain] and [current_transactions] are the attributes of the
      [Blockchain] instance.
    - [db] is the table [blocks]: a finite map from [block_index], the
      primary key, to the values bound to the other columns. [insert_row]
      admits a key only within the 64-bit range of an SQLite [INTEGER]. *)
Record State := {
  blocks : list Block;
  lists : list (list Transaction);
  chain : list ref;
  current_transactions : ref;
  db : gmap Z Row;
}.

#[global] Instance Block_inhabited : Inhabited Block :=
  populate {| index := 0; timestamp := inhabitant; transactions := 0%nat;
              proof := 0; previous_hash := PNone |}.

(** The exceptions of the program: those of Python, and those of
    [sqlite3]. *)
Inductive exn :=
  | IndexError
  | TypeError
  | UnicodeEncodeError
  | OverflowError
  | IntegrityError
  | ProgrammingError.

#[global] Instance exn_eq_dec : EqDecision exn.
Proof. solve_decision. Defined.

(** A computation returns a value, raises an exception, or runs for more
    iterations than it was given. The state is kept when it raises. *)
Inductive outcome (A : Type) :=
  | Ok (a : A) (s : State)
  | Raise (e : exn) (s : State)
  | Diverge.
#[global] Arguments Ok {A} a s.
#[global] Arguments Raise {A} e s.
#[global] Arguments Diverge {A}.

Definition M (A : Type) : Type := State → outcome A.

#[global] Instance M_ret : MRet M := λ A a s, Ok a s.
#[global] Instance M_bind : MBind M := λ A B k m s,
  match m s with
  | Ok a s' => k a s'
  | Raise e s' => Raise e s'
  | Diverge => Diverge
  end.

Definition raise {A} (e : exn) : M A := λ s, Raise e s.
Definition get : M State := λ s, Ok s s.

(** [try: body except e: handler] *)
Definition try_except {A} (body : M A) (e : exn) (handler : M A) : M A := λ s,
  match body s with
  | Raise e' s' => if decide (e' = e) then handler s' else Raise e' s'
  | o => o
  end.

(** ** The table [blocks] *)

(** [SELECT MAX(block_index) FROM blocks]: [None] on an empty table. *)
Definition max_key (t : gmap Z Row) : option Z :=
  match (map_to_list t).*1 with
  | [] => None
  | k :: ks => Some (foldr Z.max k ks)
  end.

Definition select_max : M (option Z) := λ s, Ok (max_key (db s)) s.

(** An SQLite [INTEGER] is a signed integer of 64 bits. *)
Definition int64 (z : Z) : bool :=
  (-9223372036854775808 <=? z) && (z <=? 9223372036854775807).

(** The code points [U+D800] to [U+DFFF], which UTF-8 does not encode. *)
Definition surrogate (c : N) : bool := (0xD800 <=? c)%N && (c <=? 0xDFFF)%N.

(** What [sqlite3] raises when it binds a value to a parameter [?] of a
    statement, if it raises: [OverflowError] for an [int] outside 64 bits,
    [UnicodeEncodeError] for a [str] it cannot encode, [ProgrammingError]
    for a list or a dict. [None], a [bool], a [float] and the other [int]
    and [str] are bound. *)
Definition bind_param (v : pyval) : option exn :=
  match v with
  | PNone | PBool _ | PFloat _ => None
  | PInt z => if int64 z then None else Some OverflowError
  | PStr s => if existsb surrogate s then Some UnicodeEncodeError else None
  | PList _ | PDict _ => Some ProgrammingError
  end.

(** The parameters are bound in their order: the first that fails raises. *)
Fixpoint bind_params (vs : list pyval) : option exn :=
  match vs with
  | [] => None
  | v :: vs' =>
      match bind_param v with
      | Some e => Some e
      | None => bind_params vs'
      end
  end.

(** The parameters of the [INSERT] of the row [r] under the key [k]. *)
Definition bind_row (k : Z) (r : Row) : option exn :=
  bind_params [PInt k; PFloat (row_timestamp r); PInt (row_proof r);
               row_previous_hash r].

(** [INSERT INTO blocks ... VALUES (?, ?, ?, ?)] with the key [k] and the
    columns of [r]: the statement runs once its parameters are bound, and
    then the primary key rejects a [block_index] that the table holds
    already. The table is as before when the call raises. *)
Definition insert_row (k : Z) (r : Row) : M unit := λ s,
  match bind_row k r with
  | Some e => Raise e s
  | None =>
      match db s !! k with
      | Some _ => Raise IntegrityError s
      | None =>
          Ok tt {| blocks := blocks s; lists := lists s; chain := chain s;
                   current_transactions := current_transactions s;
                   db := <[k := r]> (db s) |}
      end
  end.

(** ** Object store *)

(** Reading an object. The references a run holds always name objects
    ([reachable_wf] below); on any other reference the total lookup [!!!]
    returns a default value. *)
Definition get_block (r : ref) : M Block := λ s, Ok (blocks s !!! r) s.
Definition get_list (r : ref) : M (list Transaction) := λ s, Ok (lists s !!! r) s.

(** A new dict. *)
Definition alloc_block (b : Block) : M ref := λ s,
  Ok (length (blocks s))
     {| blocks := blocks s ++ [b]; lists := lists s; chain := chain s;
        current_transactions := current_transactions s; db := db s |}.

(** A new list. *)
Definition alloc_list (l : list Transaction) : M ref := λ s,
  Ok (length (lists s))
     {| blocks := blocks s; lists := lists s ++ [l]; chain := chain s;
        current_transactions := current_transactions s; db := db s |}.

(** The dict [b] after [b['index'] = i]. *)
Definition with_index (b : Block) (i : Z) : Block :=
  {| index := i; timestamp := timestamp b; transactions := transactions b;
     proof := proof b; previous_hash := previous_hash b |}.

(** [block['index'] = i], on the object [r] names *)
Definition set_index (r : ref) (i : Z) : M unit := λ s,
  Ok tt
     {| blocks := <[r := with_index (blocks s !!! r) i]> (blocks s);
        lists := lists s; chain := chain s;
        current_transactions := current_transactions s; db := db s |}.

(** [l.append(t)] *)
Definition list_append (r : ref) (t : Transaction) : M unit := λ s,
  Ok tt
     {| blocks := blocks s; lists := <[r := (lists s !!! r) ++ [t]]> (lists s);
        chain := chain s; current_transactions := current_transactions s;
        db := db s |}.

(** [self.chain = c] *)
Definition set_chain (c : list ref) : M unit := λ s,
  Ok tt
     {| blocks := blocks s; lists := lists s; chain := c;
        current_transactions := current_transactions s; db := db s |}.

(** [self.chain.append(r)] *)
Definition chain_append (r : ref) : M unit := λ s,
  Ok tt
     {| blocks := blocks s; lists := lists s; chain := chain s ++ [r];
        current_transactions := current_transactions s; db := db s |}.

(** [self.current_transactions = r] *)
Definition set_current_transactions (r : ref) : M unit := λ s,
  Ok tt
     {| blocks := blocks s; lists := lists s; chain := chain s;
        current_transactions := r; db := db s |}.

(** ** The class [Blockchain] *)

(** The dicts as values, keys in the order the program inserts them. *)
Definition transaction_value (t : Transaction) : pyval :=
  PDict [(str "sender", sender t); (str "recipient", recipient t);
         (str "amount", amount t)].

Definition block_value (s : State) (b : Block) : pyval :=
  PDict [(str "index", PInt (index b));
         (str "timestamp", PFloat (timestamp b));
         (str "transactions", PList (transaction_value <$> (lists s !!! transactions b)));
         (str "proof", PInt (proof b));
         (str "previous_hash", previous_hash b)].

(** [Blockchain.hash] *)
Definition hash (block : pyval) : pystr :=
  let block_string := encode (json_dumps block) in
  sha256_hexdigest block_string.

(** [hash] of the dict a reference names. *)
Definition hash_block (r : ref) : M pystr := λ s,
  Ok (hash (block_value s (blocks s !!! r))) s.

(** [Blockchain.last_block]: [self.chain[-1]] *)
Definition last_block : M ref := λ s,
  match last (chain s) with
  | Some r => Ok r s
  | None => Raise IndexError s
  end.

(** [Blockchain.valid_proof] *)
Definition valid_proof (last_proof proof : Z) : bool :=
  let guess := encode (str_of_int last_proof ++ str_of_int proof) in
  let guess_hash := sha256_hexdigest guess in
  bool_decide (take 4 guess_hash = str "0000").

(** The loop of [Blockchain.proof_of_work], for at most [fuel] tests. *)
Fixpoint proof_of_work_loop (fuel : nat) (last_proof proof : Z) : option Z :=
  match fuel with
  | O => None
  | S fuel' =>
      if valid_proof last_proof proof then Some proof
      else proof_of_work_loop fuel' last_proof (proof + 1)
  end.

(** [Blockchain.proof_of_work] *)
Definition proof_of_work (fuel : nat) (last_proof : Z) : M Z := λ s,
  match proof_of_work_loop fuel last_proof 0 with
  | Some proof => Ok proof s
  | None => Diverge
  end.

Definition row_of (b : Block) : Row :=
  {| row_timestamp := timestamp b; row_proof := proof b;
     row_previous_hash := previous_hash b |}.

(** [Blockchain.save_block_to_db] *)
Definition save_block_to_db (block : ref) : M unit :=
  try_except
    (b ← get_block block;
     insert_row (index b) (row_of b))
    IntegrityError
    (last_index ← select_max;
     i ← match last_index with
         | Some m => mret (m + 1)
         | None => raise TypeError
         end;
     set_index block i;;
     b ← get_block block;
     insert_row (index b) (row_of b)).

(** [Blockchain.new_block]; [now] is what [time()] returns. *)
Definition new_block (now : pyfloat) (proof : Z) (previous_hash : pyval) : M ref :=
  s ← get;
  previous_hash ←
    (if truthy previous_hash then mret previous_hash
     else (r ← last_block; h ← hash_block r; mret (PStr h)));
  block ← alloc_block
    {| index := Z.of_nat (length (chain s)) + 1;
       timestamp := now;
       transactions := current_transactions s;
       proof := proof;
       previous_hash := previous_hash |};
  l ← alloc_list [];
  set_current_transactions l;;
  save_block_to_db block;;
  chain_append block;;
  mret block.

(** [Blockchain.new_transaction] *)
Definition new_transaction (sender recipient amount : pyval) : M Z :=
  s ← get;
  list_append (current_transactions s)
    {| sender := sender; recipient := recipient; amount := amount |};;
  r ← last_block;
  b ← get_block r;
  mret (index b + 1).

(** [Blockchain.__init__] *)
Definition __init__ (now : pyfloat) : M unit :=
  set_chain [];;
  l ← alloc_list [];
  set_current_transactions l;;
  new_block now 100 (PStr (str "1"));;
  mret tt.

(** The process before [blockchain = Blockchain()]: no object yet, and the
    table as the file [blockchain.db] holds it. *)
Definition boot (t : gmap Z Row) : State :=
  {| blocks := []; lists := []; chain := []; current_transactions := 0%nat;
     db := t |}.

(** ** The handler [mine] *)

Record Response := {
  message : pystr;
  block_index : Z;
  response_transactions : list Transaction;
  response_proof : Z;
  response_previous_hash : pyval;
}.

Definition mine (fuel : nat) (now : pyfloat) : M (Response * Z) :=
  r ← last_block;
  lb ← get_block r;
  let last_proof := proof lb in
  found ← proof_of_work fuel last_proof;
  prev_hash ← hash_block r;
  block ← new_block now found (PStr prev_hash);
  b ← get_block block;
  txs ← get_list (transactions b);
  mret ({| message := str "Blok baru telah ditambahkan";
           block_index := index b;
           response_transactions := txs;
           response_proof := proof b;
           response_previous_hash := previous_hash b |}, 200).

(** ** Vocabulary of the properties *)

(** The block at position [i] of the chain, positions counted from 1. *)
Definition block_at (s : State) (i : nat) : option Block :=
  match i with
  | O => None
  | S k => chain s !! k ≫= λ r, blocks s !! r
  end.

(** The pending transactions. *)
Definition pool (s : State) : list Transaction :=
  lists s !!! current_transactions s.

(** The transactions a block holds. *)
Definition block_transactions (s : State) (b : Block) : list Transaction :=
  lists s !!! transactions b.

(** A sequence of calls of [new_transaction]. *)
Fixpoint submit_all (txs : list Transaction) : M unit :=
  match txs with
  | [] => mret tt
  | t :: txs' =>
      new_transaction (sender t) (recipient t) (amount t);;
      submit_all txs'
  end.

(** The states of a run: [blockchain = Blockchain()] when the module is
    loaded, on a table [t], then calls of [mine] and [new_transaction]. *)
Inductive reachable (t : gmap Z Row) : State → Prop :=
  | reachable_init now s :
      __init__ now (boot t) = Ok tt s → reachable t s
  | reachable_mine s fuel now r s' :
      reachable t s → mine fuel now s = Ok r s' → reachable t s'
  | reachable_new_transaction s sender recipient amount i s' :
      reachable t s →
      new_transaction sender recipient amount s = Ok i s' →
      reachable t s'.

(** [m] is the largest key of the table. *)
Definition is_max_key (t : gmap Z Row) (m : Z) : Prop :=
  is_Some (t !! m) ∧ ∀ k, is_Some (t !! k) → k ≤ m.

(** The state [save_block_to_db] leaves when it records the block [b],
    held at [r], under the key [i]. *)
Definition saved (s : State) (r : ref) (b : Block) (i : Z) : State :=
  {| blocks := <[r := with_index b i]> (blocks s);
     lists := lists s; chain := chain s;
     current_transactions := current_transactions s;
     db := <[i := row_of b]> (db s) |}.

(** The key under which [save_block_to_db] records a block of index [i]. *)
Definition saved_index (t : gmap Z Row) (i : Z) : Z :=
  match t !! i with
  | None => i
  | Some _ => match max_key t with Some m => m + 1 | None => i end
  end.

(** The state in which [save_block_to_db] raises after it has given the
    block [b], held at [r], the index [i]: the table is as before. *)
Definition reindexed (s : State) (r : ref) (b : Block) (i : Z) : State :=
  {| blocks := <[r := with_index b i]> (blocks s);
     lists := lists s; chain := chain s;
     current_transactions := current_transactions s;
     db := db s |}.

(** The table [t] takes the block [b]: [sqlite3] binds the values of the
    block, and the key under which [save_block_to_db] records it is within
    64 bits. *)
Definition storable (t : gmap Z Row) (b : Block) : bool :=
  match bind_row (index b) (row_of b) with
  | Some _ => false
  | None => int64 (saved_index t (index b))
  end.

(** The dict [new_block] builds. *)
Definition fresh_block (s : State) (now : pyfloat) (proof : Z)
    (previous_hash : pyval) : Block :=
  {| index := Z.of_nat (length (chain s)) + 1; timestamp := now;
     transactions := current_transactions s; proof := proof;
     previous_hash := previous_hash |}.

(** The state [new_block] leaves: the block [b], recorded under the key
    [i], is a new object at the end of the chain, and the pool is a new
    list. *)
Definition sealed (s : State) (b : Block) (i : Z) : State :=
  {| blocks := blocks s ++ [with_index b i];
     lists := lists s ++ [[]];
     chain := chain s ++ [length (blocks s)];
     current_transactions := length (lists s);
     db := <[i := row_of b]> (db s) |}.

(** The state in which [new_block] calls [save_block_to_db]: the block
    [b] is a new object, not yet in the chain, and the pool is a new
    list. *)
Definition pending (s : State) (b : Block) : State :=
  {| blocks := blocks s ++ [b];
     lists := lists s ++ [[]];
     chain := chain s;
     current_transactions := length (lists s);
     db := db s |}.

(** [previous_hash or self.hash(self.chain[-1])] *)
Definition effective_previous_hash (s : State) (previous_hash : pyval) :
    option pyval :=
  if truthy previous_hash then Some previous_hash
  else match last (chain s) with
       | Some r => Some (PStr (hash (block_value s (blocks s !!! r))))
       | None => None
       end.

(** The object store is consistent: the references of the chain and of
    the blocks name objects, and no block shares its list of transactions
    with the pool. *)
Record wf (s : State) : Prop := {
  wf_chain : ∀ r, r ∈ chain s → (r < length (blocks s))%nat;
  wf_pool : (current_transactions s < length (lists s))%nat;
  wf_blocks : ∀ r b, blocks s !! r = Some b →
    (transactions b < length (lists s))%nat ∧
    transactions b ≠ current_transactions s;
}.

(** The state after a call of [new_transaction]. *)
Definition submitted (s : State) (t : Transaction) : State :=
  {| blocks := blocks s;
     lists := <[current_transactions s := pool s ++ [t]]> (lists s);
     chain := chain s; current_transactions := current_transactions s;
     db := db s |}.

End Ledger.

(** * The other handlers of the application *)

Section Handlers.
Context {floats : PyFloat}.

(** ** Operations of Python on the body of a request *)

(** [k in s] for two strings: [k] occurs in [s]. *)
Fixpoint starts_with (s k : pystr) : bool :=
  match k, s with
  | [], _ => true
  | _ :: _, [] => false
  | a :: k', b :: s' => (a =? b)%N && starts_with s' k'
  end.

Fixpoint occurs_in (k s : pystr) : bool :=
  starts_with s k ||
  match s with
  | [] => false
  | _ :: s' => occurs_in k s'
  end.

(** [d[k]] on the items of a dict. *)
Fixpoint dict_get (d : list (pystr * pyval)) (k : pystr) : option pyval :=
  match d with
  | [] => None
  | (k', v) :: d' => if decide (k' = k) then Some v else dict_get d' k
  end.

(** [x == k] for a value [x] of a request body and a string [k]. *)
Definition equals_str (x : pyval) (k : pystr) : bool :=
  match x with
  | PStr s => bool_decide (s = k)
  | _ => false
  end.

(** The exceptions a handler lets escape: those of the class, and
    [KeyError]. *)
Inductive handler_exn := ClassError (e : exn) | KeyError.

(** What a handler does: it returns, lets an exception escape, or does not
    finish within the iterations it was given. *)
Inductive handled (A : Type) :=
  | Done (a : A) (s : State)
  | Escaped (e : handler_exn) (s : State)
  | Unfinished.
#[global] Arguments Done {A} a s.
#[global] Arguments Escaped {A} e s.
#[global] Arguments Unfinished {A}.

Definition HM (A : Type) : Type := State → handled A.

#[global] Instance HM_ret : MRet HM := λ A a s, Done a s.
#[global] Instance HM_bind : MBind HM := λ A B k m s,
  match m s with
  | Done a s' => k a s'
  | Escaped e s' => Escaped e s'
  | Unfinished => Unfinished
  end.

Definition escape {A} (e : handler_exn) : HM A := λ s, Escaped e s.

(** A call of a method of [blockchain]. *)
Definition call {A} (m : M A) : HM A := λ s,
  match m s with
  | Ok a s' => Done a s'
  | Raise e s' => Escaped (ClassError e) s'
  | Diverge => Unfinished
  end.

(** [k in values], for a string [k]: a key of a dict, an element of a list,
    a part of a string; the other values are not containers. *)
Definition contains (values : pyval) (k : pystr) : HM bool :=
  match values with
  | PDict d => mret (bool_decide (k ∈ d.*1))
  | PList l => mret (existsb (λ x, equals_str x k) l)
  | PStr s => mret (occurs_in k s)
  | _ => escape (ClassError TypeError)
  end.

(** [values[k]], for a string [k]: only a dict takes a string. *)
Definition getitem (values : pyval) (k : pystr) : HM pyval :=
  match values with
  | PDict d =>
      match dict_get d k with
      | Some v => mret v
      | None => escape KeyError
      end
  | _ => escape (ClassError TypeError)
  end.

(** [all(k in values for k in ks)]: the tests stop at the first that
    fails. *)
Fixpoint all_in (values : pyval) (ks : list pystr) : HM bool :=
  match ks with
  | [] => mret true
  | k :: ks' =>
      b ← contains values k;
      if b : bool then all_in values ks' else mret false
  end.

(** ** The handlers *)

(** What a handler returns: a text, or [jsonify] of a dict. *)
Inductive body :=
  | Text (s : pystr)
  | Json (v : pyval).

Definition required : list pystr :=
  [str "sender"; str "recipient"; str "amount"].

(** The handler of [/transactions/new]; [values] is what
    [request.get_json()] returns. *)
Definition new_transaction_route (values : pyval) : HM (body * Z) :=
  complete ← all_in values required;
  if negb complete then mret (Text (str "Data transaksi tidak lengkap"), 400)
  else
    sender ← getitem values (str "sender");
    recipient ← getitem values (str "recipient");
    amount ← getitem values (str "amount");
    index ← call (new_transaction sender recipient amount);
    mret (Json (PDict [(str "message",
                        PStr (str "Transaksi akan dimasukkan ke dalam blok " ++
                              str_of_int index))]),
          201).

(** The blocks of the chain, as the values [jsonify] serializes. *)
Definition chain_value (s : State) : list pyval :=
  (λ r, block_value s (blocks s !!! r)) <$> chain s.

(** The handler of [/chain]. *)
Definition full_chain : HM (body * Z) := λ s,
  Done (Json (PDict [(str "chain", PList (chain_value s));
                     (str "length", PInt (Z.of_nat (length (chain s))))]),
        200) s.

(** ** Vocabulary of the properties of runs *)

(** A call of [mine] or of [new_transaction] that returns. *)
Inductive step : State → State → Prop :=
  | step_mine s fuel now r s' :
      mine fuel now s = Ok r s' → step s s'
  | step_new_transaction s sender recipient amount i s' :
      new_transaction sender recipient amount s = Ok i s' → step s s'.

(** The characters of the printable part of ASCII. *)
Definition printable (s : pystr) : Prop :=
  Forall (λ c, (32 ≤ c ≤ 126)%N) s.

(** The digits of base 16, in lower case. *)
Definition hex_char (c : N) : Prop :=
  (48 ≤ c ≤ 57)%N ∨ (97 ≤ c ≤ 102)%N.

(** [v] is a dict whose item of key [k] is [x]. *)
Definition field (v : pyval) (k : pystr) (x : pyval) : Prop :=
  ∃ d, v = PDict d ∧ dict_get d k = Some x.

(** Two values that differ at most in the order of the items of their
    dicts, at any depth: the lists have related elements in the same order,
    and the items of the second dict are related, one by one, to those of
    the first taken in some order. *)
Inductive same_value : pyval → pyval → Prop :=
  | same_value_refl v : same_value v v
  | same_value_list l1 l2 :
      Forall2 same_value l1 l2 → same_value (PList l1) (PList l2)
  | same_value_dict d1 d d2 :
      NoDup d1.*1 → d1 ≡ₚ d →
      Forall2 (λ x y, x.1 = y.1 ∧ same_value x.2 y.2) d d2 →
      same_value (PDict d1) (PDict d2).

End Handlers.

(** ** Concrete inputs *)

(** A row a former run left in the table. *)
Definition stale_row : @Row whole_floats :=
  {| row_timestamp := (seconds 1600000000); row_proof := 100;
     row_previous_hash := PStr (str "1") |}.

(** The state after [__init__], for a process started at time
    [1700000000.0] on the table [t]. *)
Definition genesis_state (t : gmap Z (@Row whole_floats)) : @State whole_floats :=
  let s0 := {| blocks := []; lists := [[]]; chain := [];
               current_transactions := 0%nat; db := t |} in
  sealed s0 (fresh_block s0 (seconds 1700000000) 100 (PStr (str "1")))
    (saved_index t 1).

(** A block of index 5, to be saved in a table with rows of indices 5
    and 7. *)
Definition block_5 : @Block whole_floats :=
  {| index := 5; timestamp := (seconds 1700000000); transactions := 0%nat;
     proof := 35293; previous_hash := PStr (str "1") |}.

Definition stale_state : @State whole_floats :=
  {| blocks := [block_5]; lists := [[]; []]; chain := [];
     current_transactions := 1%nat;
     db := {[5 := stale_row; 7 := stale_row]} |}.

(** The items of the genesis block, in the order [new_block] inserts them,
    and in the opposite order. *)
Definition genesis_items : list (pystr * @pyval whole_floats) :=
  [(str "index", PInt 1); (str "timestamp", PFloat (seconds 1700000000));
   (str "transactions", PList []); (str "proof", PInt 100);
   (str "previous_hash", PStr (str "1"))].

Definition genesis_items_reversed : list (pystr * @pyval whole_floats) :=
  [(str "previous_hash", PStr (str "1")); (str "proof", PInt 100);
   (str "transactions", PList []); (str "timestamp", PFloat (seconds 1700000000));
   (str "index", PInt 1)].

(** A transaction from [A] to [B], and bodies of requests: a JSON object
    with the three fields, one without [recipient], and a list of the three
    names. *)
Definition tx_ab : @Transaction whole_floats :=
  {| sender := PStr (str "A"); recipient := PStr (str "B"); amount := PInt 10 |}.

Definition body_ab : list (pystr * @pyval whole_floats) :=
  [(str "sender", PStr (str "A")); (str "recipient", PStr (str "B"));
   (str "amount", PInt 10)].

Definition body_no_recipient : list (pystr * @pyval whole_floats) :=
  [(str "sender", PStr (str "A")); (str "amount", PInt 10)].

Definition body_names : @pyval whole_floats :=
  PList [PStr (str "sender"); PStr (str "recipient"); PStr (str "amount")].

(** A transaction dict whose amount is a JSON object, and the same dict
    with the items of both objects in another order. *)
Definition nested_amount : @pyval whole_floats :=
  PDict [(str "sender", PStr (str "A"));
         (str "amount", PDict [(str "value", PInt 10); (str "unit", PStr (str "IDR"))])].

Definition nested_amount_reordered : @pyval whole_floats :=
  PDict [(str "amount", PDict [(str "unit", PStr (str "IDR")); (str "value", PInt 10)]);
         (str "sender", PStr (str "A"))].


(** A table with one row, of index 5. *)
Definition stale_table : gmap Z (@Row whole_floats) := {[5 := stale_row]}.

(** The block of index 5, to be saved in a table with rows of indices 5
    and [2^63 - 1], the largest SQLite [INTEGER]. *)
Definition brim_state : @State whole_floats :=
  {| blocks := [block_5]; lists := [[]; []]; chain := [];
     current_transactions := 1%nat;
     db := {[5 := stale_row; 9223372036854775807 := stale_row]} |}.

(** A table with rows of indices 1 and [2^63 - 1], and the state in which
    [new_block] saves the genesis block on it. *)
Definition brim_table : gmap Z (@Row whole_floats) :=
  {[1 := stale_row; 9223372036854775807 := stale_row]}.

Definition brim_genesis_state : @State whole_floats :=
  pending {| blocks := []; lists := [[]]; chain := [];
             current_transactions := 0%nat; db := brim_table |}
    {| index := 1; timestamp := seconds 1700000000; transactions := 0%nat;
       proof := 100; previous_hash := PStr (str "1") |}.


(** * Properties *)

Section Properties.
Context {floats : PyFloat}.

(** ** Order of strings and sorted items *)

Lemma pystr_leb_total (s t : pystr) : pystr_leb s t = true ∨ pystr_leb t s = true.
Proof.
  revert t. induction s as [|a s IH]; intros [|b t]; simpl; auto.
  destruct (N.ltb_spec a b), (N.ltb_spec b a); auto; lia.
Qed.

Lemma pystr_leb_antisym (s t : pystr) :
  pystr_leb s t = true → pystr_leb t s = true → s = t.
Proof.
  revert t. induction s as [|a s IH]; intros [|b t]; simpl; try done.
  destruct (N.ltb_spec a b), (N.ltb_spec b a); try done; try lia.
  intros Hst Hts. assert (a = b) as -> by lia. f_equal. by apply IH.
Qed.

Lemma pystr_leb_trans (s t u : pystr) :
  pystr_leb s t = true → pystr_leb t u = true → pystr_leb s u = true.
Proof.
  revert t u. induction s as [|a s IH]; intros [|b t] [|c u]; simpl; try done.
  destruct (N.ltb_spec a b), (N.ltb_spec b c), (N.ltb_spec b a),
    (N.ltb_spec c b), (N.ltb_spec a c), (N.ltb_spec c a);
    try done; try lia.
  apply IH.
Qed.

#[local] Instance item_le_total {A} : Total (@item_le A).
Proof. intros x y. apply pystr_leb_total. Qed.

#[local] Instance item_le_trans {A} : Transitive (@item_le A).
Proof. intros x y z. apply pystr_leb_trans. Qed.

Lemma NoDup_fst_eq {A} (d : list (pystr * A)) x y :
  NoDup d.*1 → x ∈ d → y ∈ d → x.1 = y.1 → x = y.
Proof.
  induction d as [|z d IH]; simpl; [by intros _ ?%elem_of_nil|].
  rewrite NoDup_cons. intros [Hz Hd] Hx Hy Hk.
  apply elem_of_cons in Hx as [->|Hx], Hy as [->|Hy]; auto.
  - destruct Hz. rewrite Hk. by apply list_elem_of_fmap_2.
  - destruct Hz. rewrite <- Hk. by apply list_elem_of_fmap_2.
Qed.

(** Sorting forgets the insertion order of a dict. *)
Lemma sort_items_Permutation {A} (d1 d2 : list (pystr * A)) :
  NoDup d1.*1 → d1 ≡ₚ d2 → sort_items d1 = sort_items d2.
Proof.
  intros Hnd Hp. unfold sort_items.
  apply (StronglySorted_unique_strong item_le).
  - intros x y Hx Hy Hxy Hyx.
    rewrite merge_sort_Permutation in Hx, Hy. rewrite <- Hp in Hy.
    apply (NoDup_fst_eq d1); auto. by apply pystr_leb_antisym.
  - apply StronglySorted_merge_sort; apply _.
  - apply StronglySorted_merge_sort; apply _.
  - by rewrite !merge_sort_Permutation.
Qed.

Lemma json_dumps_dict_Permutation (d1 d2 : list (pystr * pyval)) :
  NoDup d1.*1 → d1 ≡ₚ d2 → json_dumps (PDict d1) = json_dumps (PDict d2).
Proof.
  intros Hnd Hp. simpl. do 4 f_equal. apply sort_items_Permutation.
  - rewrite <- list_fmap_compose.
    erewrite list_fmap_ext; [exact Hnd|]. by intros ? [k v].
  - by apply fmap_Permutation.
Qed.

(** C9. [hash] is a function of the value of its argument, and it does not
    depend on the order in which the fields of a block were inserted: two
    dicts with the same items (distinct keys, any order) have the same
    digest, since the serialization sorts the items by key. *)
Theorem hash_insertion_order (d1 d2 : list (pystr * pyval)) :
  NoDup d1.*1 → d1 ≡ₚ d2 →
  hash (PDict d1) = hash (PDict d1) ∧ hash (PDict d1) = hash (PDict d2).
Proof.
  intros Hnd Hp. split; [reflexivity|].
  unfold hash. by rewrite (json_dumps_dict_Permutation d1 d2).
Qed.

(** ** Proof of work *)

(** What the loop returns is a valid proof, and no candidate it passed over
    is valid. *)
Lemma proof_of_work_loop_sound fuel last_proof start p :
  proof_of_work_loop fuel last_proof start = Some p →
  start ≤ p ∧ valid_proof last_proof p = true ∧
  ∀ q, start ≤ q < p → valid_proof last_proof q = false.
Proof.
  revert start. induction fuel as [|fuel IH]; intros start; simpl; [done|].
  destruct (valid_proof last_proof start) eqn:Hv.
  - intros [= <-]. repeat split; [lia|done|lia].
  - intros [Hle [Hp Hmin]]%IH. repeat split; [lia|done|].
    intros q Hq. destruct (decide (q = start)) as [->|]; [done|].
    apply Hmin. lia.
Qed.

(** With a valid proof [q] ahead and more fuel than candidates up to [q],
    the loop returns. *)
Lemma proof_of_work_loop_complete fuel last_proof start q :
  start ≤ q → valid_proof last_proof q = true →
  (Z.to_nat (q - start) < fuel)%nat →
  ∃ p, proof_of_work_loop fuel last_proof start = Some p ∧ p ≤ q.
Proof.
  revert start. induction fuel as [|fuel IH]; intros start Hle Hq Hfuel;
    simpl; [lia|].
  destruct (valid_proof last_proof start) eqn:Hv; [by exists start|].
  destruct (decide (q = start)) as [->|]; [congruence|].
  apply IH; [lia|done|lia].
Qed.

(** C4. When some non-negative integer is a valid proof for [last_proof],
    [proof_of_work] returns, given enough iterations, and what it returns is
    the least non-negative valid proof. *)
Theorem proof_of_work_least (last_proof : Z) :
  (∃ q, 0 ≤ q ∧ valid_proof last_proof q = true) →
  ∃ p fuel,
    (∀ fuel' s, (fuel ≤ fuel')%nat → proof_of_work fuel' last_proof s = Ok p s) ∧
    0 ≤ p ∧ valid_proof last_proof p = true ∧
    ∀ q, 0 ≤ q → valid_proof last_proof q = true → p ≤ q.
Proof.
  intros (q & Hq0 & Hq).
  destruct (proof_of_work_loop_complete (S (Z.to_nat q)) last_proof 0 q)
    as (p & Hp & Hpq); [done|done|lia|].
  destruct (proof_of_work_loop_sound _ _ _ _ Hp) as (Hp0 & Hvalid & Hmin).
  exists p, (S (Z.to_nat p)). repeat split; [|done|done|].
  - intros fuel' s Hfuel. unfold proof_of_work.
    destruct (proof_of_work_loop_complete fuel' last_proof 0 p)
      as (p' & Hp' & Hle); [done|done|lia|].
    rewrite Hp'. f_equal.
    destruct (proof_of_work_loop_sound _ _ _ _ Hp') as (Hp'0 & Hv' & _).
    destruct (decide (p' = p)) as [|Hne]; [done|].
    rewrite Hmin in Hv'; [done|lia].
  - intros q' Hq'0 Hq'. destruct (decide (p ≤ q')) as [|Hlt]; [done|].
    rewrite Hmin in Hq'; [done|lia].
Qed.

(** ** The table *)

Lemma foldr_max_ge (k : Z) (ks : list Z) x :
  x ∈ k :: ks → x ≤ foldr Z.max k ks.
Proof.
  induction ks as [|k' ks IH]; simpl.
  - intros ->%list_elem_of_singleton. lia.
  - rewrite !elem_of_cons. intros [->|[->|Hx]].
    + etrans; [apply IH; left|]. lia.
    + lia.
    + etrans; [apply IH; by right|]. lia.
Qed.

Lemma foldr_max_elem (k : Z) (ks : list Z) : foldr Z.max k ks ∈ k :: ks.
Proof.
  induction ks as [|k' ks IH]; simpl; [left|].
  destruct (Z.max_spec k' (foldr Z.max k ks)) as [[_ ->]|[_ ->]].
  - apply elem_of_cons in IH as [->|?]; [left|by do 2 right].
  - right; left.
Qed.

Lemma elem_of_keys (t : gmap Z Row) k :
  k ∈ (map_to_list t).*1 ↔ is_Some (t !! k).
Proof.
  rewrite list_elem_of_fmap. split.
  - intros ([k' r] & -> & Hr%elem_of_map_to_list). by exists r.
  - intros [r Hr]. exists (k, r). by rewrite elem_of_map_to_list.
Qed.

Lemma max_key_Some (t : gmap Z Row) m : max_key t = Some m → is_max_key t m.
Proof.
  unfold max_key, is_max_key. destruct ((map_to_list t).*1) as [|k ks] eqn:Hks;
    [done|].
  intros [= <-]. split.
  - apply elem_of_keys. rewrite Hks. apply foldr_max_elem.
  - intros k' Hk'%elem_of_keys. rewrite Hks in Hk'. by apply foldr_max_ge.
Qed.

Lemma max_key_is_Some (t : gmap Z Row) k :
  is_Some (t !! k) → ∃ m, max_key t = Some m.
Proof.
  intros Hk%elem_of_keys. unfold max_key.
  destruct ((map_to_list t).*1); [by apply elem_of_nil in Hk|eauto].
Qed.

(** The successor of the largest key is not a key. *)
Lemma max_key_succ_fresh (t : gmap Z Row) m : is_max_key t m → t !! (m + 1) = None.
Proof.
  intros [_ Hmax]. destruct (t !! (m + 1)) eqn:Hk; [|done].
  specialize (Hmax (m + 1)). rewrite Hk in Hmax.
  assert (m + 1 ≤ m) by eauto. lia.
Qed.

(** ** Binding the parameters of the [INSERT] *)

Lemma bind_row_None k r :
  bind_row k r = None ↔
  int64 k = true ∧ int64 (row_proof r) = true ∧
  bind_param (row_previous_hash r) = None.
Proof.
  unfold bind_row. simpl.
  destruct (int64 k), (int64 (row_proof r)),
    (bind_param (row_previous_hash r)); simpl;
    (split; [intros ?; by simplify_eq|intros (? & ? & ?); by simplify_eq]).
Qed.

(** The exceptions of a binding; [IntegrityError] is not one of them. *)
Lemma bind_param_error v e :
  bind_param v = Some e →
  e = OverflowError ∨ e = UnicodeEncodeError ∨ e = ProgrammingError.
Proof.
  destruct v; simpl; try case_match; intros [= <-]; auto.
Qed.

Lemma bind_row_error k r e :
  bind_row k r = Some e →
  e = OverflowError ∨ e = UnicodeEncodeError ∨ e = ProgrammingError.
Proof.
  unfold bind_row. simpl.
  destruct (int64 k); [|intros [= <-]; auto].
  destruct (int64 (row_proof r)); [|intros [= <-]; auto].
  destruct (bind_param (row_previous_hash r)) as [e'|] eqn:He; [|done].
  intros [= <-]. by eapply bind_param_error.
Qed.

(** With a key outside 64 bits, the first parameter raises. *)
Lemma bind_row_overflow k r : int64 k = false → bind_row k r = Some OverflowError.
Proof. intros Hk. unfold bind_row. simpl. by rewrite Hk. Qed.

(** ** [save_block_to_db] *)

Lemma with_index_id (b : Block) : with_index b (index b) = b.
Proof. by destruct b. Qed.

Lemma saved_index_fresh (t : gmap Z Row) i : t !! i = None → saved_index t i = i.
Proof. unfold saved_index. by intros ->. Qed.

Lemma saved_index_conflict (t : gmap Z Row) i m :
  is_Some (t !! i) → max_key t = Some m → saved_index t i = m + 1.
Proof. unfold saved_index. by intros [? ->] ->. Qed.

(** The key [save_block_to_db] picks is not below the index of the block. *)
Lemma saved_index_ge (t : gmap Z Row) i : i ≤ saved_index t i.
Proof.
  unfold saved_index. destruct (t !! i) eqn:Hi; [|done].
  destruct (max_key t) as [m|] eqn:Hm; [|done].
  apply max_key_Some in Hm as [_ Hmax]. specialize (Hmax i). rewrite Hi in Hmax.
  assert (i ≤ m) by eauto. lia.
Qed.

(** [save_block_to_db] on a block object, case by case. Its values cannot
    be bound: the exception escapes, and nothing has changed. Otherwise the
    row is stored, under the index of the block when the table has no row
    of that index, and under the index after the largest one when it has
    one; in this second case the block object has got that index, also when
    the index is outside 64 bits and the second [INSERT] raises. *)
Lemma save_block_to_db_spec s r b :
  blocks s !! r = Some b →
  save_block_to_db r s =
  match bind_row (index b) (row_of b) with
  | Some e => Raise e s
  | None =>
      if int64 (saved_index (db s) (index b))
      then Ok tt (saved s r b (saved_index (db s) (index b)))
      else Raise OverflowError (reindexed s r b (saved_index (db s) (index b)))
  end.
Proof.
  intros Hb. pose proof (list_lookup_total_correct _ _ _ Hb) as Hbt.
  unfold save_block_to_db, try_except, mbind, M_bind, get_block, insert_row.
  rewrite Hbt.
  destruct (bind_row (index b) (row_of b)) as [e|] eqn:Hbind.
  - rewrite decide_False; [done|]. intros ->.
    by destruct (bind_row_error _ _ _ Hbind) as [?|[?|?]].
  - apply bind_row_None in Hbind as (Hi & Hp & Hh).
    destruct (db s !! index b) as [row|] eqn:Hk.
    + rewrite decide_True by done.
      destruct (max_key_is_Some (db s) (index b)) as [m Hm]; [eauto|].
      rewrite (saved_index_conflict _ _ m) by eauto.
      unfold select_max, set_index, mret, M_ret. rewrite Hm. simpl.
      rewrite Hbt, list_lookup_total_insert_eq by (by eapply lookup_lt_Some).
      simpl. destruct (int64 (m + 1)) eqn:Hm1.
      * rewrite (proj2 (bind_row_None (m + 1) _)) by done.
        by rewrite max_key_succ_fresh by (by apply max_key_Some).
      * by rewrite bind_row_overflow.
    + rewrite saved_index_fresh, Hi by done. f_equal.
      unfold saved. rewrite with_index_id, list_insert_id by done. by destruct s.
Qed.

(** The table takes the block: [save_block_to_db] returns. *)
Lemma save_block_to_db_storable s r b :
  blocks s !! r = Some b → storable (db s) b = true →
  save_block_to_db r s = Ok tt (saved s r b (saved_index (db s) (index b))).
Proof.
  intros Hb Hst. rewrite (save_block_to_db_spec _ _ _ Hb).
  unfold storable in Hst. destruct (bind_row _ _); [done|]. by rewrite Hst.
Qed.

(** [save_block_to_db] has returned: the table took the block. *)
Lemma save_block_to_db_Ok s r b u s' :
  blocks s !! r = Some b → save_block_to_db r s = Ok u s' →
  storable (db s) b = true ∧ s' = saved s r b (saved_index (db s) (index b)).
Proof.
  intros Hb. rewrite (save_block_to_db_spec _ _ _ Hb). unfold storable.
  destruct (bind_row _ _); [done|]. destruct (int64 _); [|done].
  by intros [= _ <-].
Qed.

(** [save_block_to_db] has raised: the exception is one of a binding, and
    the table is as before. *)
Lemma save_block_to_db_Raise s r b e s' :
  blocks s !! r = Some b → save_block_to_db r s = Raise e s' →
  storable (db s) b = false ∧
  (e = OverflowError ∨ e = UnicodeEncodeError ∨ e = ProgrammingError) ∧
  db s' = db s ∧ lists s' = lists s ∧ chain s' = chain s ∧
  current_transactions s' = current_transactions s.
Proof.
  intros Hb. rewrite (save_block_to_db_spec _ _ _ Hb). unfold storable.
  destruct (bind_row _ _) as [e'|] eqn:Hbind.
  - intros [= <- <-]. split; [done|]. split; [by eapply bind_row_error|done].
  - destruct (int64 _); [done|]. intros [= <- <-]. split; [done|].
    split; [by left|done].
Qed.

(** ** [new_block] *)

Lemma new_block_spec s now p ph :
  new_block now p ph s =
  match effective_previous_hash s ph with
  | Some ph' =>
      match bind_row (Z.of_nat (length (chain s)) + 1)
              (row_of (fresh_block s now p ph')) with
      | Some e => Raise e (pending s (fresh_block s now p ph'))
      | None =>
          if int64 (saved_index (db s) (Z.of_nat (length (chain s)) + 1))
          then Ok (length (blocks s))
                  (sealed s (fresh_block s now p ph')
                     (saved_index (db s) (Z.of_nat (length (chain s)) + 1)))
          else Raise OverflowError
                 (reindexed (pending s (fresh_block s now p ph'))
                    (length (blocks s)) (fresh_block s now p ph')
                    (saved_index (db s) (Z.of_nat (length (chain s)) + 1)))
      end
  | None => Raise IndexError s
  end.
Proof.
  unfold effective_previous_hash, new_block, mbind, M_bind, get, last_block,
    hash_block, mret, M_ret, alloc_block, alloc_list, set_current_transactions.
  destruct (truthy ph); [|destruct (last (chain s)); [|done]]; simpl;
    (erewrite save_block_to_db_spec; [|by apply list_lookup_middle]);
    simpl; (destruct (bind_row _ _); [done|]);
    (destruct (int64 _); [|done]);
    unfold chain_append, saved, sealed; simpl; do 2 f_equal;
    rewrite insert_app_r_alt, Nat.sub_diag by done; reflexivity.
Qed.

Lemma storable_fresh_block_eq s now p ph :
  storable (db s) (fresh_block s now p ph) =
  match bind_row (Z.of_nat (length (chain s)) + 1)
          (row_of (fresh_block s now p ph)) with
  | Some _ => false
  | None => int64 (saved_index (db s) (Z.of_nat (length (chain s)) + 1))
  end.
Proof. reflexivity. Qed.

(** The table takes the block [new_block] builds: [new_block] returns. *)
Lemma new_block_storable s now p ph ph' :
  effective_previous_hash s ph = Some ph' →
  storable (db s) (fresh_block s now p ph') = true →
  new_block now p ph s =
  Ok (length (blocks s))
     (sealed s (fresh_block s now p ph')
        (saved_index (db s) (Z.of_nat (length (chain s)) + 1))).
Proof.
  intros Hph Hst. rewrite new_block_spec, Hph.
  rewrite storable_fresh_block_eq in Hst.
  destruct (bind_row _ _); [done|]. by rewrite Hst.
Qed.

(** [new_block] has returned: the table took the block it built. *)
Lemma new_block_Ok s now p ph r s' :
  new_block now p ph s = Ok r s' →
  ∃ ph', effective_previous_hash s ph = Some ph' ∧
         storable (db s) (fresh_block s now p ph') = true ∧
         r = length (blocks s) ∧
         s' = sealed s (fresh_block s now p ph')
                (saved_index (db s) (Z.of_nat (length (chain s)) + 1)).
Proof.
  rewrite new_block_spec.
  destruct (effective_previous_hash s ph) as [ph'|]; [|done].
  intros Hnew. exists ph'. rewrite storable_fresh_block_eq.
  destruct (bind_row _ _); [done|].
  destruct (int64 _) eqn:Hi; [|done]. by injection Hnew as <- <-.
Qed.

(** [new_block] has raised: [IndexError] for a falsy [previous_hash] on
    the empty chain, with nothing changed, or the exception of a binding,
    with the chain and the table as before. *)
Lemma new_block_Raise s now p ph e s' :
  new_block now p ph s = Raise e s' →
  (effective_previous_hash s ph = None ∧ e = IndexError ∧ s' = s) ∨
  (∃ ph', effective_previous_hash s ph = Some ph' ∧
          storable (db s) (fresh_block s now p ph') = false ∧
          (e = OverflowError ∨ e = UnicodeEncodeError ∨ e = ProgrammingError) ∧
          chain s' = chain s ∧ db s' = db s).
Proof.
  rewrite new_block_spec.
  destruct (effective_previous_hash s ph) as [ph'|]; [|intros [= <- <-]; by left].
  intros Hraise. right. exists ph'. rewrite storable_fresh_block_eq.
  split; [done|]. destruct (bind_row _ _) as [e'|] eqn:Hbind.
  - injection Hraise as <- <-. split; [done|].
    split; [by eapply bind_row_error|done].
  - destruct (int64 _); [done|]. injection Hraise as <- <-.
    split; [done|]. split; [by left|done].
Qed.

(** ** The digest is a string of 64 digits *)

Lemma length_bind_const {A B} (f : A → list B) n (l : list A) :
  (∀ x, length (f x) = n) → length (l ≫= f) = (n * length l)%nat.
Proof.
  intros Hf. induction l as [|x l IH]; [simpl; lia|].
  rewrite bind_cons, length_app, Hf, IH. simpl. lia.
Qed.

Lemma round_length st kw : length st = 8%nat → length (SHA256.round st kw) = 8%nat.
Proof.
  intros Hst. do 9 (destruct st as [|? st]; try done).
Qed.

Lemma compress_length h block :
  length h = 8%nat → length (SHA256.compress h block) = 8%nat.
Proof.
  intros Hh. unfold SHA256.compress. rewrite length_zip_with, Hh.
  assert (∀ l st, length st = 8%nat → length (foldl SHA256.round st l) = 8%nat)
    as Hfold.
  { induction l as [|kw l IH]; intros st Hst; simpl; [done|].
    by apply IH, round_length. }
  rewrite Hfold by done. reflexivity.
Qed.

Lemma sha256_hexdigest_length data : length (sha256_hexdigest data) = 64%nat.
Proof.
  unfold sha256_hexdigest, SHA256.digest.
  rewrite (length_bind_const _ 2) by done.
  rewrite (length_bind_const _ 4) by done.
  unfold SHA256.digest_words.
  assert (∀ l h, length h = 8%nat → length (foldl SHA256.compress h l) = 8%nat)
    as Hfold.
  { induction l as [|b l IH]; intros h Hh; simpl; [done|].
    by apply IH, compress_length. }
  rewrite Hfold by done. reflexivity.
Qed.

(** A digest is truthy: [previous_hash or ...] keeps it. *)
Lemma hash_truthy v : truthy (PStr (hash v)) = true.
Proof.
  unfold hash. pose proof (sha256_hexdigest_length (encode (json_dumps v))).
  simpl. by destruct (sha256_hexdigest _).
Qed.

Lemma hex_digit_hex_char d : (d < 16)%N → hex_char (hex_digit d).
Proof.
  intros Hd. unfold hex_char, hex_digit.
  destruct (N.ltb_spec d 10); lia.
Qed.

Lemma land_15_lt x : (N.land x 0xF < 16)%N.
Proof. change 0xF%N with (N.ones 4). rewrite N.land_ones. by apply N.mod_lt. Qed.

Lemma be_bytes_bound n x : Forall (λ b, (b < 256)%N) (SHA256.be_bytes n x).
Proof.
  induction n as [|n IH]; simpl; constructor; [|done].
  change 0xFF%N with (N.ones 8). rewrite N.land_ones. by apply N.mod_lt.
Qed.

Lemma sha256_hexdigest_hex data : Forall hex_char (sha256_hexdigest data).
Proof.
  unfold sha256_hexdigest, SHA256.digest.
  apply Forall_bind, Forall_bind, Forall_forall. intros w _. unfold compose.
  eapply Forall_impl; [apply (be_bytes_bound 4 w)|]. intros x Hx. simpl.
  apply Forall_cons_2; [|apply Forall_cons_2; [|apply Forall_nil_2]];
    apply hex_digit_hex_char; [|apply land_15_lt].
  rewrite N.shiftr_div_pow2. apply N.Div0.div_lt_upper_bound.
  simpl in Hx |- *. lia.
Qed.

(** A digest has no surrogate: [sqlite3] binds it. *)
Lemma hash_bindable v : bind_param (PStr (hash v)) = None.
Proof.
  simpl. replace (existsb surrogate (hash v)) with false; [done|].
  symmetry. apply not_true_is_false. intros (c & Hc & Hs)%existsb_exists.
  pose proof (sha256_hexdigest_hex (encode (json_dumps v))) as Hhex.
  rewrite Forall_forall in Hhex. apply list_elem_of_In, Hhex in Hc.
  unfold surrogate in Hs. apply andb_true_iff in Hs as [Hs _].
  apply N.leb_le in Hs. unfold hex_char in Hc. lia.
Qed.

(** The table takes the block [new_block] builds when the proof and the
    key are within 64 bits and the [previous_hash] can be bound. *)
Lemma storable_fresh_block s now p ph :
  int64 p = true → bind_param ph = None →
  int64 (saved_index (db s) (Z.of_nat (length (chain s)) + 1)) = true →
  storable (db s) (fresh_block s now p ph) = true.
Proof.
  intros Hp Hph Hi. rewrite storable_fresh_block_eq.
  rewrite (proj2 (bind_row_None _ _)); [done|]. split; [|done].
  pose proof (saved_index_ge (db s) (Z.of_nat (length (chain s)) + 1)).
  unfold int64 in *. apply andb_true_iff in Hi as [_ Hi%Z.leb_le].
  apply andb_true_iff. split; apply Z.leb_le; lia.
Qed.

Lemma storable_fresh_block_inv s now p ph :
  storable (db s) (fresh_block s now p ph) = true →
  int64 p = true ∧ bind_param ph = None ∧
  int64 (saved_index (db s) (Z.of_nat (length (chain s)) + 1)) = true.
Proof.
  rewrite storable_fresh_block_eq. destruct (bind_row _ _) eqn:Hbind; [done|].
  apply bind_row_None in Hbind as (_ & ? & ?). done.
Qed.

(** ** The operations, state by state *)

(** [mine] has returned: the search has found a proof, and [new_block] has
    sealed a block with it and with the digest of the last block. *)
Lemma mine_Ok s fuel now r resp code s' :
  last (chain s) = Some r →
  mine fuel now s = Ok (resp, code) s' →
  ∃ p, proof_of_work_loop fuel (proof (blocks s !!! r)) 0 = Some p ∧
       resp =
       {| message := str "Blok baru telah ditambahkan";
          block_index := saved_index (db s) (Z.of_nat (length (chain s)) + 1);
          response_transactions := (lists s ++ [[]]) !!! current_transactions s;
          response_proof := p;
          response_previous_hash :=
            PStr (hash (block_value s (blocks s !!! r))) |} ∧
       code = 200 ∧
       s' = sealed s
              (fresh_block s now p (PStr (hash (block_value s (blocks s !!! r)))))
              (saved_index (db s) (Z.of_nat (length (chain s)) + 1)).
Proof.
  intros Hlast. unfold mine, mbind, M_bind, last_block, get_block,
    proof_of_work, hash_block. rewrite Hlast.
  destruct (proof_of_work_loop _ _ _) as [p|]; [|done].
  destruct (new_block now p _ s) as [ref s1| |] eqn:Hnew; [|done..].
  apply new_block_Ok in Hnew as (ph' & Hph & _ & -> & ->).
  unfold effective_previous_hash in Hph. rewrite hash_truthy in Hph.
  injection Hph as <-. unfold get_list, mret, M_ret. simpl.
  rewrite list_lookup_total_middle by done. simpl.
  intros [= <- <- <-]. by exists p.
Qed.

(** [mine] returns when the search finds a proof and the table takes the
    block. *)
Lemma mine_storable s fuel now r p :
  last (chain s) = Some r →
  proof_of_work_loop fuel (proof (blocks s !!! r)) 0 = Some p →
  int64 p = true →
  int64 (saved_index (db s) (Z.of_nat (length (chain s)) + 1)) = true →
  ∃ resp s', mine fuel now s = Ok (resp, 200) s'.
Proof.
  intros Hlast Hp Hp64 Hi. unfold mine, mbind, M_bind, last_block, get_block,
    proof_of_work, hash_block. rewrite Hlast, Hp.
  erewrite new_block_storable;
    [|unfold effective_previous_hash; by rewrite hash_truthy
     |by apply storable_fresh_block; [|apply hash_bindable|]].
  unfold get_list, mret, M_ret. simpl. eauto.
Qed.

(** [mine] raises nothing but [OverflowError], when the proof or the key
    is outside 64 bits, on a chain that has a last block. *)
Lemma mine_Raise s fuel now r e s' :
  last (chain s) = Some r →
  mine fuel now s = Raise e s' →
  e = OverflowError ∧ chain s' = chain s ∧ db s' = db s ∧
  ∃ p, proof_of_work_loop fuel (proof (blocks s !!! r)) 0 = Some p ∧
       (int64 p = false ∨
        int64 (saved_index (db s) (Z.of_nat (length (chain s)) + 1)) = false).
Proof.
  intros Hlast. unfold mine, mbind, M_bind, last_block, get_block,
    proof_of_work, hash_block. rewrite Hlast.
  destruct (proof_of_work_loop _ _ _) as [p|] eqn:Hp; [|done].
  destruct (new_block now p _ s) as [ref s1|e1 s1|] eqn:Hnew; [done| |done].
  intros [= <- <-].
  rewrite new_block_spec in Hnew. unfold effective_previous_hash in Hnew.
  rewrite hash_truthy in Hnew. unfold bind_row in Hnew. simpl in Hnew.
  pose proof (hash_bindable (block_value s (blocks s !!! r))) as Hh.
  simpl in Hh.
  destruct (int64 (Z.of_nat (length (chain s)) + 1)) eqn:Hk.
  - destruct (int64 p) eqn:Hp64.
    + rewrite Hh in Hnew.
      destruct (int64 (saved_index _ _)) eqn:Hi; [done|].
      injection Hnew as <- <-. repeat split; [done..|]. exists p. auto.
    + injection Hnew as <- <-. repeat split; [done..|]. exists p. auto.
  - injection Hnew as <- <-. repeat split; [done..|]. exists p.
    split; [done|]. right.
    pose proof (saved_index_ge (db s) (Z.of_nat (length (chain s)) + 1)).
    unfold int64 in *. apply andb_false_iff in Hk as [Hk%Z.leb_gt|Hk%Z.leb_gt];
      [lia|].
    apply andb_false_iff. right. apply Z.leb_gt. lia.
Qed.

Lemma mine_empty s fuel now :
  chain s = [] → mine fuel now s = Raise IndexError s.
Proof.
  intros Hc. unfold mine, mbind, M_bind, last_block. by rewrite Hc.
Qed.

Lemma new_transaction_spec s a b c r :
  last (chain s) = Some r →
  new_transaction a b c s =
  Ok (index (blocks s !!! r) + 1)
     (submitted s {| sender := a; recipient := b; amount := c |}).
Proof.
  intros Hlast. unfold new_transaction, mbind, M_bind, get, list_append,
    last_block, get_block, mret, M_ret. simpl. by rewrite Hlast.
Qed.

Lemma new_transaction_empty s a b c i s' :
  chain s = [] → new_transaction a b c s ≠ Ok i s'.
Proof.
  intros Hc. unfold new_transaction, mbind, M_bind, get, list_append,
    last_block. simpl. by rewrite Hc.
Qed.

(** [__init__] sets up an empty chain and an empty pool, and calls
    [new_block]: it returns when the key of the genesis block is within
    64 bits, and raises [OverflowError] otherwise. *)
Lemma init_spec t now :
  __init__ now (boot t) =
  let s0 := {| blocks := []; lists := [[]]; chain := [];
               current_transactions := 0%nat; db := t |} in
  let b := fresh_block s0 now 100 (PStr (str "1")) in
  if int64 (saved_index t 1) then Ok tt (sealed s0 b (saved_index t 1))
  else Raise OverflowError (reindexed (pending s0 b) 0%nat b (saved_index t 1)).
Proof.
  unfold __init__, mbind, M_bind, set_chain, alloc_list,
    set_current_transactions, boot. simpl.
  rewrite new_block_spec. simpl. change (Z.of_nat 0 + 1) with 1.
  by destruct (int64 (saved_index t 1)).
Qed.

Lemma init_Ok t now s :
  __init__ now (boot t) = Ok tt s →
  let s0 := {| blocks := []; lists := [[]]; chain := [];
               current_transactions := 0%nat; db := t |} in
  int64 (saved_index t 1) = true ∧
  s = sealed s0 (fresh_block s0 now 100 (PStr (str "1"))) (saved_index t 1).
Proof.
  rewrite init_spec. simpl. destruct (int64 (saved_index t 1)); [|done].
  by intros [= <-].
Qed.

(** ** Consistency of the object store *)

Lemma wf_sealed s b i :
  wf s → transactions b = current_transactions s → wf (sealed s b i).
Proof.
  intros [Hc Hp Hb] Htx. split; simpl.
  - intros r [Hr| ->%list_elem_of_singleton]%elem_of_app;
      rewrite length_app; simpl; [apply Hc in Hr|]; lia.
  - rewrite length_app. simpl. lia.
  - intros r b' Hr. rewrite length_app. simpl.
    apply lookup_app_Some in Hr as [Hr|[_ Hr]].
    + apply Hb in Hr. lia.
    + apply list_lookup_singleton_Some in Hr as [_ <-]. simpl. lia.
Qed.

Lemma wf_submitted s t : wf s → wf (submitted s t).
Proof.
  intros [Hc Hp Hb]. split; simpl; rewrite ?length_insert; auto.
Qed.

(** The states of a run, by the shape of the state each step leaves. *)
Lemma reachable_states_ind (t : gmap Z Row) (P : State → Prop) :
  (∀ now,
     let s0 := {| blocks := []; lists := [[]]; chain := [];
                  current_transactions := 0%nat; db := t |} in
     P (sealed s0 (fresh_block s0 now 100 (PStr (str "1"))) (saved_index t 1))) →
  (∀ s r fuel now p,
     reachable t s → P s → last (chain s) = Some r →
     proof_of_work_loop fuel (proof (blocks s !!! r)) 0 = Some p →
     P (sealed s
          (fresh_block s now p (PStr (hash (block_value s (blocks s !!! r)))))
          (saved_index (db s) (Z.of_nat (length (chain s)) + 1)))) →
  (∀ s r tx, reachable t s → P s → last (chain s) = Some r → P (submitted s tx)) →
  ∀ s, reachable t s → P s.
Proof.
  intros Hinit Hmine Htx.
  induction 1 as [now s Hs|s fuel now r s' Hr IH Hs|s a b c i s' Hr IH Hs].
  - apply init_Ok in Hs as [_ ->]. apply Hinit.
  - destruct (last (chain s)) as [r0|] eqn:Hlast.
    + destruct r as [resp code].
      apply (mine_Ok _ _ _ _ _ _ _ Hlast) in Hs as (p & Hpow & _ & _ & ->).
      by eapply Hmine.
    + apply last_None in Hlast. by rewrite mine_empty in Hs.
  - destruct (last (chain s)) as [r0|] eqn:Hlast.
    + rewrite (new_transaction_spec _ _ _ _ _ Hlast) in Hs.
      injection Hs as _ <-. by eapply Htx.
    + apply last_None in Hlast. by apply new_transaction_empty in Hs.
Qed.

Lemma reachable_wf t s : reachable t s → wf s.
Proof.
  revert s. apply reachable_states_ind.
  - intros now s0. apply wf_sealed; [|done].
    split; simpl; [by intros ? ?%elem_of_nil|lia|done].
  - intros s r fuel now p _ Hwf _ _. by apply wf_sealed.
  - intros s r tx _ Hwf _. by apply wf_submitted.
Qed.

Lemma reachable_chain_nonempty t s : reachable t s → chain s ≠ [].
Proof.
  revert s. apply reachable_states_ind.
  - by intros now s0.
  - intros s r fuel now p _ _ _ _. simpl. by intros [_ ?]%app_eq_nil.
  - by intros s r tx _ Hne _.
Qed.

Lemma reachable_last t s : reachable t s → ∃ r, last (chain s) = Some r.
Proof.
  intros Hne%reachable_chain_nonempty.
  destruct (last (chain s)) eqn:Hlast; [eauto|]. by apply last_None in Hlast.
Qed.

(** ** Blocks of the chain are left alone *)

Lemma block_value_sealed s b i b0 :
  (transactions b0 < length (lists s))%nat →
  block_value (sealed s b i) b0 = block_value s b0.
Proof.
  intros Hb0. unfold block_value. simpl.
  by rewrite lookup_total_app_l.
Qed.

Lemma block_value_submitted s t b0 :
  transactions b0 ≠ current_transactions s →
  block_value (submitted s t) b0 = block_value s b0.
Proof.
  intros Hb0. unfold block_value. simpl.
  by rewrite list_lookup_total_insert_ne.
Qed.

Lemma block_at_Some s i b :
  block_at s i = Some b →
  ∃ r, (0 < i)%nat ∧ chain s !! (i - 1)%nat = Some r ∧ blocks s !! r = Some b.
Proof.
  destruct i as [|k]; simpl; [done|].
  rewrite Nat.sub_0_r. destruct (chain s !! k) as [r|]; simpl; [|done].
  intros Hb. exists r. split; [lia|done].
Qed.

Lemma block_at_length s i b :
  block_at s i = Some b → (1 ≤ i ≤ length (chain s))%nat.
Proof.
  intros (r & Hi & Hr%lookup_lt_Some & _)%block_at_Some. lia.
Qed.

Lemma block_at_last s r :
  last (chain s) = Some r → block_at s (length (chain s)) = blocks s !! r.
Proof.
  rewrite last_lookup. unfold block_at.
  destruct (length (chain s)) eqn:Hlen; simpl.
  - intros ?%lookup_lt_Some. lia.
  - by intros ->.
Qed.

(** Sealing a block adds it at the end of the chain, and leaves the blocks
    before it as they were. *)
Lemma block_at_sealed s b i k :
  wf s →
  block_at (sealed s b i) k =
  if decide (k = S (length (chain s))) then Some (with_index b i)
  else block_at s k.
Proof.
  intros [Hc _ _]. case_decide as Hk.
  - subst k. simpl. rewrite list_lookup_middle by done.
    simpl. by rewrite list_lookup_middle.
  - destruct k as [|j]; simpl; [done|].
    destruct (decide (j < length (chain s))%nat) as [Hj|Hj].
    + rewrite lookup_app_l by done.
      destruct (chain s !! j) as [r|] eqn:Hr; simpl; [|done].
      apply lookup_app_l, Hc. by eapply list_elem_of_lookup_2.
    + rewrite !(lookup_ge_None_2 _ j); [done|lia|].
      rewrite length_app. simpl. lia.
Qed.

(** ** Chain linkage *)

Lemma reachable_linked t s i b :
  reachable t s → block_at s (S (S i)) = Some b →
  ∃ b', block_at s (S i) = Some b' ∧
        previous_hash b = PStr (hash (block_value s b')).
Proof.
  intros Hs. revert i b. revert s Hs.
  apply (reachable_states_ind t (λ s, ∀ i b, block_at s (S (S i)) = Some b → _));
    [intros now s0|intros s r fuel now p Hs IH Hlast Hp|intros s r tx Hs IH Hlast];
    intros i b Hb.
  - by destruct i.
  - pose proof (reachable_wf _ _ Hs) as Hwf.
    rewrite block_at_sealed in Hb |- * by done.
    case_decide as Hi.
    + injection Hi as Hi. injection Hb as <-. rewrite decide_False by lia.
      rewrite Hi, (block_at_last _ _ Hlast).
      assert (r ∈ chain s) as Hr%(wf_chain _ Hwf)%lookup_lt_is_Some_2.
      { apply last_Some in Hlast as [l ->]. set_solver. }
      destruct Hr as [b' Hb']. exists b'. split; [done|]. simpl.
      rewrite (list_lookup_total_correct _ _ _ Hb').
      rewrite block_value_sealed; [done|]. by eapply wf_blocks.
    + apply block_at_length in Hb as Hlen. rewrite decide_False by lia.
      destruct (IH _ _ Hb) as (b' & Hb' & Hh). exists b'. split; [done|].
      rewrite block_value_sealed; [done|].
      apply block_at_Some in Hb' as (r' & _ & _ & Hr'). by eapply wf_blocks.
  - pose proof (reachable_wf _ _ Hs) as Hwf.
    destruct (IH _ _ Hb) as (b' & Hb' & Hh). exists b'. split; [done|].
    rewrite block_value_submitted; [done|].
    apply block_at_Some in Hb' as (r' & _ & _ & Hr'). by eapply wf_blocks.
Qed.

(** C1. In every state of a run, the block at a position [i > 1] of the
    chain has for [previous_hash] the digest [hash] gives for the block at
    position [i - 1]. *)
Theorem chain_linkage (t : gmap Z Row) (s : State) (i : nat) (b : Block) :
  reachable t s → (1 < i)%nat → block_at s i = Some b →
  ∃ b', block_at s (i - 1) = Some b' ∧
        previous_hash b = PStr (hash (block_value s b')).
Proof.
  intros Hs Hi Hb. destruct i as [|[|i]]; [lia|lia|].
  replace (S (S i) - 1)%nat with (S i) by lia. by eapply reachable_linked.
Qed.

(** ** Indices *)

Lemma wf_boot t :
  wf {| blocks := []; lists := [[]]; chain := [];
        current_transactions := 0%nat; db := t |}.
Proof. split; simpl; [by intros ? ?%elem_of_nil|lia|done]. Qed.

(** On a table that holds none of the indices [1], ..., [length chain], no
    insertion conflicts: every block keeps the index [new_block] gave it,
    and the table gains exactly these keys. *)
Lemma reachable_indexed t s :
  reachable t s →
  (∀ k, 1 ≤ k ≤ Z.of_nat (length (chain s)) → t !! k = None) →
  (∀ i b, block_at s i = Some b → index b = Z.of_nat i) ∧
  (∀ k, is_Some (db s !! k) ↔
        is_Some (t !! k) ∨ 1 ≤ k ≤ Z.of_nat (length (chain s))).
Proof.
  revert s. apply (reachable_states_ind t (λ s, _ → _ ∧ _));
    [intros now s0|intros s r fuel now p Hs IH Hlast Hp|done].
  - simpl. intros Ht. rewrite saved_index_fresh by (apply Ht; lia). split.
    + intros i b. rewrite block_at_sealed by apply wf_boot.
      case_decide as Hi; [|by destruct i]. intros [= <-]. by rewrite Hi.
    + intros k. rewrite lookup_insert_is_Some. split.
      * intros [<-|[_ ?]]; [right; lia|by left].
      * intros [?|?]; [destruct (decide (1 = k)); auto|left; lia].
  - simpl. rewrite length_app. simpl. intros Ht.
    destruct IH as [IHi IHk]; [intros k Hk; apply Ht; lia|].
    set (n := Z.of_nat (length (chain s)) + 1).
    assert (db s !! n = None) as Hn.
    { apply eq_None_not_Some. rewrite IHk. unfold n.
      rewrite Ht by lia. intros [[? [=]]|?]. lia. }
    rewrite saved_index_fresh by done. split.
    + intros i b. rewrite block_at_sealed by by eapply reachable_wf.
      case_decide as Hi; [|apply IHi]. intros [= <-]. simpl. lia.
    + intros k. rewrite lookup_insert_is_Some, IHk. split.
      * intros [<-|[_ [?|?]]]; [right; unfold n; lia|by left|right; lia].
      * intros [?|?]; (destruct (decide (n = k)); [by left|right; split; [done|]]);
          [by left|right; unfold n in *; lia].
Qed.

Lemma reachable_block_at t s i :
  reachable t s → (1 ≤ i ≤ length (chain s))%nat → is_Some (block_at s i).
Proof.
  intros Hwf%reachable_wf Hi. destruct i as [|k]; [lia|]. simpl.
  destruct (lookup_lt_is_Some_2 (chain s) k) as [r Hr]; [lia|].
  rewrite Hr. simpl. apply lookup_lt_is_Some_2, (wf_chain _ Hwf).
  by eapply list_elem_of_lookup_2.
Qed.

(** C3, amended. In a run that starts on a table holding none of the
    indices [1], ..., [length chain], every position [i] of the chain holds
    a block, and its index is [i]. *)
Theorem chain_index_fresh_table (t : gmap Z Row) (s : State) (i : nat) :
  reachable t s →
  (∀ k, 1 ≤ k ≤ Z.of_nat (length (chain s)) → t !! k = None) →
  (1 ≤ i ≤ length (chain s))%nat →
  ∃ b, block_at s i = Some b ∧ index b = Z.of_nat i.
Proof.
  intros Hs Ht Hi. destruct (reachable_block_at t s i) as [b Hb]; [done..|].
  exists b. split; [done|]. by eapply reachable_indexed.
Qed.

(** C6, amended. On a table with no row of index 1, the chain after
    [__init__] has exactly one block, of index 1, [previous_hash] ["1"] and
    proof 100. *)
Theorem genesis_fresh_table (t : gmap Z Row) (now : pyfloat) :
  t !! 1 = None →
  ∃ s b, __init__ now (boot t) = Ok tt s ∧
         length (chain s) = 1%nat ∧ block_at s 1 = Some b ∧
         index b = 1 ∧ previous_hash b = PStr (str "1") ∧ proof b = 100.
Proof.
  intros Ht. rewrite init_spec. simpl. rewrite saved_index_fresh by done.
  simpl. eexists _, _. split; [reflexivity|]. by repeat split.
Qed.

(** ** Mining *)

(** [mine] returns when the proof of the last block has a valid proof
    within 64 bits, the search is given more iterations than candidates up
    to it, and the key of the new block is within 64 bits. *)
Lemma mine_returns s r fuel now q :
  last (chain s) = Some r →
  0 ≤ q ≤ 9223372036854775807 →
  valid_proof (proof (blocks s !!! r)) q = true →
  (Z.to_nat q < fuel)%nat →
  int64 (saved_index (db s) (Z.of_nat (length (chain s)) + 1)) = true →
  ∃ resp s', mine fuel now s = Ok (resp, 200) s'.
Proof.
  intros Hlast Hq0 Hq Hfuel Hi.
  destruct (proof_of_work_loop_complete fuel (proof (blocks s !!! r)) 0 q)
    as (p & Hp & Hpq); [lia|done|lia|].
  apply (mine_storable _ _ _ r p); [done..| |done].
  apply proof_of_work_loop_sound in Hp as (Hp0 & _).
  unfold int64. apply andb_true_iff. split; apply Z.leb_le; lia.
Qed.

(** C2. The block [mine] returns holds a proof that [valid_proof] accepts
    against the proof of the block before it. *)
Theorem mined_proof_valid (t : gmap Z Row) (s s' : State) (fuel : nat)
    (now : pyfloat) (resp : Response) (code : Z) :
  reachable t s → mine fuel now s = Ok (resp, code) s' →
  ∃ prev blk,
    length (chain s') = S (length (chain s)) ∧
    block_at s' (length (chain s)) = Some prev ∧
    block_at s' (S (length (chain s))) = Some blk ∧
    response_proof resp = proof blk ∧
    valid_proof (proof prev) (proof blk) = true.
Proof.
  intros Hs Hmine. pose proof (reachable_wf _ _ Hs) as Hwf.
  destruct (reachable_last _ _ Hs) as [r Hlast].
  destruct (mine_Ok _ _ _ _ _ _ _ Hlast Hmine) as (p & Hp & -> & -> & ->).
  apply proof_of_work_loop_sound in Hp as (_ & Hvalid & _).
  assert (is_Some (blocks s !! r)) as [prev Hprev].
  { apply lookup_lt_is_Some_2, (wf_chain _ Hwf).
    apply last_Some in Hlast as [l ->]. set_solver. }
  rewrite (list_lookup_total_correct _ _ _ Hprev) in Hvalid.
  exists prev. eexists. rewrite !block_at_sealed by done.
  rewrite decide_False by lia. rewrite decide_True by done.
  rewrite (block_at_last _ _ Hlast). simpl. rewrite length_app. simpl.
  repeat split; [lia|done|done].
Qed.

(** ** The pool *)

Lemma pool_submitted s t : wf s → pool (submitted s t) = pool s ++ [t].
Proof.
  intros Hwf. unfold pool at 1. simpl.
  apply list_lookup_total_insert_eq, (wf_pool _ Hwf).
Qed.

(** Calls of [new_transaction] put the transactions at the end of the pool,
    in the order of the calls. *)
Lemma submit_all_spec t s txs u s1 :
  reachable t s → submit_all txs s = Ok u s1 →
  reachable t s1 ∧ pool s1 = pool s ++ txs.
Proof.
  revert s. induction txs as [|tx txs IH]; intros s Hs; simpl.
  - intros [= _ <-]. by rewrite app_nil_r.
  - unfold mbind, M_bind.
    destruct (new_transaction _ _ _ s) as [i s'| |] eqn:Htx; [|done..].
    intros Hrest.
    assert (reachable t s') as Hs' by (by eapply reachable_new_transaction).
    destruct (reachable_last _ _ Hs) as [r Hlast].
    rewrite (new_transaction_spec _ _ _ _ _ Hlast) in Htx.
    injection Htx as _ <-.
    destruct (IH _ Hs' Hrest) as [Hs1 ->]. split; [done|].
    rewrite pool_submitted by by eapply reachable_wf.
    rewrite <- app_assoc. by destruct tx.
Qed.

Lemma submit_all_frame s txs u s1 :
  submit_all txs s = Ok u s1 →
  chain s1 = chain s ∧ blocks s1 = blocks s ∧ db s1 = db s.
Proof.
  revert s. induction txs as [|tx txs IH]; intros s; simpl.
  - by intros [= _ <-].
  - unfold mbind, M_bind.
    destruct (new_transaction _ _ _ s) as [i s'| |] eqn:Htx; [|done..].
    intros (-> & -> & ->)%IH.
    destruct (last (chain s)) as [r|] eqn:Hlast.
    + rewrite (new_transaction_spec _ _ _ _ _ Hlast) in Htx.
      by injection Htx as _ <-.
    + apply last_None in Hlast. by apply new_transaction_empty in Htx.
Qed.

(** C5. The transactions submitted since the pool was last emptied are, in
    the order of their submission and once each, the transactions of the
    block the next [mine] returns, and the pool is empty after it. *)
Theorem mine_drains_pool (t : gmap Z Row) (s s1 s2 : State)
    (txs : list Transaction) (fuel : nat) (now : pyfloat)
    (resp : Response) (code : Z) :
  reachable t s →
  submit_all txs s = Ok tt s1 →
  mine fuel now s1 = Ok (resp, code) s2 →
  ∃ blk,
    pool s1 = pool s ++ txs ∧
    block_at s2 (length (chain s2)) = Some blk ∧
    block_transactions s2 blk = pool s ++ txs ∧
    response_transactions resp = pool s ++ txs ∧
    pool s2 = [].
Proof.
  intros Hs Hsub Hmine.
  destruct (submit_all_spec _ _ _ _ _ Hs Hsub) as [Hs1 <-].
  pose proof (reachable_wf _ _ Hs1) as Hwf.
  destruct (reachable_last _ _ Hs1) as [r Hlast].
  destruct (mine_Ok _ _ _ _ _ _ _ Hlast Hmine) as (p & _ & -> & _ & ->).
  eexists. rewrite block_at_sealed by done. simpl. rewrite length_app. simpl.
  rewrite decide_True by lia. split; [done|]. split; [done|].
  unfold block_transactions, pool. simpl.
  rewrite lookup_total_app_l by apply (wf_pool _ Hwf).
  by rewrite list_lookup_total_middle.
Qed.

(** A later submission goes to the new list of the pool: the transactions
    of the blocks of the chain stay as they are. *)
Lemma sealed_block_frozen t s i b sender recipient amount j s' :
  reachable t s → block_at s i = Some b →
  new_transaction sender recipient amount s = Ok j s' →
  block_at s' i = Some b ∧ block_transactions s' b = block_transactions s b.
Proof.
  intros Hs Hb Htx. pose proof (reachable_wf _ _ Hs) as Hwf.
  destruct (reachable_last _ _ Hs) as [r Hlast].
  rewrite (new_transaction_spec _ _ _ _ _ Hlast) in Htx.
  injection Htx as _ <-. split; [done|].
  unfold block_transactions. simpl.
  apply list_lookup_total_insert_ne.
  apply block_at_Some in Hb as (r' & _ & _ & Hr').
  intros Heq. by destruct (wf_blocks _ Hwf _ _ Hr') as [_ []].
Qed.

(** ** Conflicts of index *)

(** The [INSERT] raises [IntegrityError] exactly when its parameters are
    bound and the table holds the key. *)
Lemma insert_row_conflict k row s s' :
  insert_row k row s = Raise IntegrityError s' ↔
  bind_row k row = None ∧ is_Some (db s !! k) ∧ s' = s.
Proof.
  unfold insert_row. destruct (bind_row k row) as [e|] eqn:Hbind.
  - split; [|by intros [? _]]. intros [= -> _].
    by destruct (bind_row_error _ _ _ Hbind) as [?|[?|?]].
  - destruct (db s !! k) as [row'|]; split.
    + by intros [= <-].
    + by intros (_ & _ & ->).
    + done.
    + by intros (_ & [? [=]] & _).
Qed.

(** After a conflict the key the block gets is the one after the largest
    key of the table. *)
Lemma save_block_to_db_conflict s r b :
  blocks s !! r = Some b →
  insert_row (index b) (row_of b) s = Raise IntegrityError s →
  ∃ m, max_key (db s) = Some m ∧ db s !! (m + 1) = None ∧
       -9223372036854775808 < m + 1 ∧
       save_block_to_db r s =
       if int64 (m + 1) then Ok tt (saved s r b (m + 1))
       else Raise OverflowError (reindexed s r b (m + 1)).
Proof.
  intros Hb (Hbind & Hk & _)%insert_row_conflict.
  destruct (max_key_is_Some (db s) (index b) Hk) as [m Hm].
  pose proof (max_key_Some _ _ Hm) as Hmax.
  exists m. split; [done|]. split; [by apply max_key_succ_fresh|].
  rewrite (save_block_to_db_spec _ _ _ Hb), Hbind.
  rewrite (saved_index_conflict _ _ m) by done. split; [|done].
  apply bind_row_None in Hbind as (Hi & _). destruct Hmax as [_ Hmax].
  apply Hmax in Hk. unfold int64 in Hi.
  apply andb_true_iff in Hi as [Hi%Z.leb_le _]. lia.
Qed.

Lemma int64_spec z :
  int64 z = true ↔ -9223372036854775808 ≤ z ≤ 9223372036854775807.
Proof.
  unfold int64. rewrite andb_true_iff, !Z.leb_le. done.
Qed.

(** C7, amended. When the [INSERT] of the block raises [IntegrityError],
    [save_block_to_db] gives the block object the index after the largest
    one of the table, an index the table does not hold, and runs the
    [INSERT] once more, under that index. When that index is within the 64
    bits of an SQLite [INTEGER], the row is inserted, once, and the call
    returns; when it is not, the second [INSERT] raises [OverflowError] and
    the table is as before. The other objects and the other rows are as
    before in both cases. *)
Theorem save_conflict_reassigns (s : State) (r : ref) (b : Block) :
  blocks s !! r = Some b →
  insert_row (index b) (row_of b) s = Raise IntegrityError s →
  ∃ m s',
    is_max_key (db s) m ∧
    db s !! (m + 1) = None ∧
    blocks s' !! r = Some (with_index b (m + 1)) ∧
    (∀ r', r' ≠ r → blocks s' !! r' = blocks s !! r') ∧
    (m + 1 ≤ 9223372036854775807 →
       save_block_to_db r s = Ok tt s' ∧
       db s' = <[m + 1 := row_of b]> (db s)) ∧
    (9223372036854775807 < m + 1 →
       save_block_to_db r s = Raise OverflowError s' ∧ db s' = db s).
Proof.
  intros Hb Hk.
  destruct (save_block_to_db_conflict s r b Hb Hk)
    as (m & Hm & Hfresh & Hmin & Hsave).
  exists m. destruct (int64 (m + 1)) eqn:Hi.
  - exists (saved s r b (m + 1)). apply int64_spec in Hi.
    split; [by apply max_key_Some|]. split; [done|]. simpl.
    split; [apply list_lookup_insert_eq; by eapply lookup_lt_Some|].
    split; [intros r' Hr'; by apply list_lookup_insert_ne|].
    split; [done|lia].
  - exists (reindexed s r b (m + 1)).
    assert (¬ m + 1 ≤ 9223372036854775807) as Hover.
    { intros Hle. assert (int64 (m + 1) = true) as Hi'
        by (apply int64_spec; lia). by rewrite Hi in Hi'. }
    split; [by apply max_key_Some|]. split; [done|]. simpl.
    split; [apply list_lookup_insert_eq; by eapply lookup_lt_Some|].
    split; [intros r' Hr'; by apply list_lookup_insert_ne|].
    split; [lia|done].
Qed.

(** C8, amended. When the [INSERT] of the block raises [IntegrityError],
    the index after the largest one of the table is not in the table: the
    second [INSERT] does not raise [IntegrityError], and no
    [IntegrityError] escapes from [save_block_to_db]. The call returns
    when that index is within the 64 bits of an SQLite [INTEGER]; when it
    is not, [OverflowError] escapes from the second [INSERT], and this is
    the only exception the call raises. *)
Theorem save_conflict_returns (s : State) (r : ref) (b : Block) :
  blocks s !! r = Some b →
  insert_row (index b) (row_of b) s = Raise IntegrityError s →
  ∃ m,
    max_key (db s) = Some m ∧ db s !! (m + 1) = None ∧
    (∀ s1 s2, db s1 = db s →
       insert_row (m + 1) (row_of b) s1 ≠ Raise IntegrityError s2) ∧
    (∀ s', save_block_to_db r s ≠ Raise IntegrityError s') ∧
    (m + 1 ≤ 9223372036854775807 → ∃ s', save_block_to_db r s = Ok tt s') ∧
    (∀ e s', save_block_to_db r s = Raise e s' →
       e = OverflowError ∧ 9223372036854775807 < m + 1).
Proof.
  intros Hb Hk.
  destruct (save_block_to_db_conflict s r b Hb Hk)
    as (m & Hm & Hfresh & Hmin & Hsave).
  exists m. split; [done|]. split; [done|]. split; [|split; [|split]].
  - intros s1 s2 Hdb (_ & [row Hrow] & _)%insert_row_conflict.
    by rewrite Hdb, Hfresh in Hrow.
  - intros s'. rewrite Hsave. by destruct (int64 (m + 1)).
  - intros Hle. rewrite Hsave.
    assert (int64 (m + 1) = true) as -> by (apply int64_spec; lia). eauto.
  - intros e s'. rewrite Hsave. destruct (int64 (m + 1)) eqn:Hi; [done|].
    intros [= <- _]. split; [done|].
    destruct (decide (m + 1 ≤ 9223372036854775807)) as [Hle|]; [|lia].
    assert (int64 (m + 1) = true) as Hi' by (apply int64_spec; lia).
    by rewrite Hi in Hi'.
Qed.

(** C10. [None], the empty string and [0] are falsy, and ["1"] is truthy.
    With a falsy [previous_hash], [new_block] raises [IndexError] on an
    empty chain, and changes nothing. On a chain with a last block it does
    what it does when it is given the digest of that block: the block it
    returns is the last of the chain and has that digest for
    [previous_hash], and it returns when the table takes the block.
    [__init__] calls [new_block] on the empty chain, where a falsy value
    raises [IndexError]; with ["1"] it returns, on a table that takes the
    genesis block. *)
Theorem new_block_falsy_previous_hash :
  (truthy PNone = false ∧ truthy (PStr []) = false ∧ truthy (PInt 0) = false ∧
   truthy (PStr (str "1")) = true) ∧
  (∀ s now p ph, truthy ph = false →
     (chain s = [] → new_block now p ph s = Raise IndexError s) ∧
     (∀ r, last (chain s) = Some r →
        new_block now p ph s =
        new_block now p (PStr (hash (block_value s (blocks s !!! r)))) s ∧
        (∀ r' s', new_block now p ph s = Ok r' s' →
           ∃ b, last (chain s') = Some r' ∧ blocks s' !! r' = Some b ∧
                previous_hash b = PStr (hash (block_value s (blocks s !!! r)))) ∧
        (int64 p = true →
         int64 (saved_index (db s) (Z.of_nat (length (chain s)) + 1)) = true →
         ∃ s', new_block now p ph s = Ok (length (blocks s)) s'))) ∧
  (∀ t now,
     let s0 := {| blocks := []; lists := [[]]; chain := [];
                  current_transactions := 0%nat; db := t |} in
     __init__ now (boot t) =
     (new_block now 100 (PStr (str "1")) ;; mret tt) s0 ∧
     (∀ ph, truthy ph = false →
        (new_block now 100 ph ;; mret tt) s0 = Raise IndexError s0) ∧
     (int64 (saved_index t 1) = true → ∃ s, __init__ now (boot t) = Ok tt s)).
Proof.
  split; [done|]. split.
  - intros s now p ph Hph. split.
    + intros Hc. rewrite new_block_spec. unfold effective_previous_hash.
      by rewrite Hph, Hc.
    + intros r Hlast.
      assert (effective_previous_hash s ph =
              Some (PStr (hash (block_value s (blocks s !!! r))))) as Heff
        by (unfold effective_previous_hash; by rewrite Hph, Hlast).
      split; [|split].
      * rewrite !new_block_spec, Heff. unfold effective_previous_hash.
        by rewrite hash_truthy.
      * intros r' s' (ph' & Hph' & _ & -> & ->)%new_block_Ok.
        rewrite Heff in Hph'. injection Hph' as <-. eexists. simpl.
        rewrite last_snoc, list_lookup_middle by done. done.
      * intros Hp Hi. erewrite new_block_storable; [eauto|done|].
        by apply storable_fresh_block; [|apply hash_bindable|].
  - intros t now s0. split; [done|]. split.
    + intros ph Hph. unfold mbind, M_bind. rewrite new_block_spec.
      unfold effective_previous_hash. by rewrite Hph.
    + intros Hi. rewrite init_spec. simpl. rewrite Hi. eauto.
Qed.

(** What a call of [mine] that returns has done. *)
Lemma mine_inv t s fuel now resp code s' :
  reachable t s → mine fuel now s = Ok (resp, code) s' →
  reachable t s' ∧ length (chain s') = S (length (chain s)).
Proof.
  intros Hs Hmine. split; [by eapply reachable_mine|].
  destruct (reachable_last _ _ Hs) as [r Hlast].
  destruct (mine_Ok _ _ _ _ _ _ _ Hlast Hmine) as (p & _ & _ & _ & Hs').
  rewrite Hs'. simpl. rewrite length_app. simpl. lia.
Qed.

(** * Further properties of runs *)

(** ** The table along a run *)

(** The key [save_block_to_db] picks is not a key of the table. *)
Lemma saved_index_not_key (t : gmap Z Row) i : t !! saved_index t i = None.
Proof.
  unfold saved_index. destruct (t !! i) eqn:Hi; [|done].
  destruct (max_key_is_Some t i) as [m Hm]; [eauto|]. rewrite Hm.
  by apply max_key_succ_fresh, max_key_Some.
Qed.

(** Each block of the chain has brought one row, under its index, and the
    rows of the table the run started on are all there. *)
Lemma reachable_persisted t s :
  reachable t s →
  t ⊆ db s ∧
  size (db s) = (size t + length (chain s))%nat ∧
  ∀ i b, block_at s i = Some b →
         db s !! index b = Some (row_of b) ∧ t !! index b = None.
Proof.
  revert s. apply reachable_states_ind.
  - intros now s0. pose proof (saved_index_not_key t 1) as Hk. simpl.
    split; [by apply insert_subseteq|]. split.
    + rewrite map_size_insert_None by done. lia.
    + intros i b. rewrite block_at_sealed by apply wf_boot.
      case_decide; [|by destruct i]. intros [= <-]. simpl.
      by rewrite lookup_insert_eq.
  - intros s r fuel now p Hs (Hsub & Hsize & Hrows) Hlast Hp.
    pose proof (saved_index_not_key (db s) (Z.of_nat (length (chain s)) + 1))
      as Hk. simpl. split; [|split].
    + etrans; [exact Hsub|]. by apply insert_subseteq.
    + rewrite map_size_insert_None, length_app by done. simpl. lia.
    + intros i b. rewrite block_at_sealed by by eapply reachable_wf.
      case_decide.
      * intros [= <-]. simpl. rewrite lookup_insert_eq. split; [done|].
        by eapply lookup_weaken_None.
      * intros Hb. destruct (Hrows _ _ Hb) as [Hrow Ht]. split; [|done].
        rewrite lookup_insert_ne; [done|]. intros Heq.
        rewrite <- Heq in Hrow. by rewrite Hk in Hrow.
  - by intros s r tx Hs IH Hlast.
Qed.

(** X2. In every state of a run, on any table, the table holds under the index
    of each block of the chain a row with the timestamp, the proof and the
    [previous_hash] of that block. *)
Theorem chain_blocks_persisted (t : gmap Z Row) (s : State) (i : nat) (b : Block) :
  reachable t s → block_at s i = Some b →
  db s !! index b =
  Some {| row_timestamp := timestamp b; row_proof := proof b;
          row_previous_hash := previous_hash b |}.
Proof.
  intros Hs Hb. by destruct (reachable_persisted t s Hs) as (_ & _ & Hrows),
    (Hrows i b Hb).
Qed.

(** X3. The rows of the table the run started on are kept as they were, and
    the run has added one row for each block of the chain. *)
Theorem table_only_grows (t : gmap Z Row) (s : State) :
  reachable t s →
  (∀ k row, t !! k = Some row → db s !! k = Some row) ∧
  size (db s) = (size t + length (chain s))%nat.
Proof.
  intros (Hsub & Hsize & _)%reachable_persisted. split; [|done].
  intros k row Hk. by eapply lookup_weaken.
Qed.

Lemma reachable_indices_distinct t s :
  reachable t s →
  ∀ i j b b', block_at s i = Some b → block_at s j = Some b' →
              index b = index b' → i = j.
Proof.
  revert s.
  apply (reachable_states_ind t (λ s, ∀ i j b b',
           block_at s i = Some b → block_at s j = Some b' →
           index b = index b' → i = j)).
  - intros now s0 i j b b'. rewrite !block_at_sealed by apply wf_boot.
    repeat case_decide; [congruence|by destruct j|by destruct i|by destruct i].
  - intros s r fuel now p Hs IH Hlast Hp i j b b'.
    pose proof (saved_index_not_key (db s) (Z.of_nat (length (chain s)) + 1))
      as Hk.
    destruct (reachable_persisted t s Hs) as (_ & _ & Hrows).
    rewrite !block_at_sealed by by eapply reachable_wf.
    repeat case_decide; [congruence| | |apply IH].
    + intros [= <-] Hb' Heq. simpl in Heq.
      destruct (Hrows _ _ Hb') as [Hrow _]. rewrite <- Heq in Hrow.
      by rewrite Hk in Hrow.
    + intros Hb [= <-] Heq. simpl in Heq.
      destruct (Hrows _ _ Hb) as [Hrow _]. rewrite Heq in Hrow.
      by rewrite Hk in Hrow.
  - by intros s r tx Hs IH Hlast.
Qed.

(** X4. In every state of a run, on any table, two positions of the chain hold
    blocks of different indices. *)
Theorem chain_indices_distinct (t : gmap Z Row) (s : State) (i j : nat)
    (b b' : Block) :
  reachable t s → block_at s i = Some b → block_at s j = Some b' →
  i ≠ j → index b ≠ index b'.
Proof.
  intros Hs Hb Hb' Hij Heq. by destruct Hij, (reachable_indices_distinct t s Hs i j b b').
Qed.


(** ** The proofs along the chain *)

Lemma reachable_proofs t s i b :
  reachable t s → block_at s (S (S i)) = Some b →
  ∃ b', block_at s (S i) = Some b' ∧ 0 ≤ proof b ∧
        valid_proof (proof b') (proof b) = true ∧
        ∀ q, 0 ≤ q < proof b → valid_proof (proof b') q = false.
Proof.
  intros Hs. revert i b. revert s Hs.
  apply (reachable_states_ind t (λ s, ∀ i b, block_at s (S (S i)) = Some b → _));
    [intros now s0|intros s r fuel now p Hs IH Hlast Hp|intros s r tx Hs IH Hlast];
    intros i b Hb.
  - by destruct i.
  - pose proof (reachable_wf _ _ Hs) as Hwf.
    rewrite block_at_sealed in Hb |- * by done.
    case_decide as Hi; [|rewrite decide_False by (apply block_at_length in Hb; lia);
                         by apply IH].
    injection Hi as Hi. injection Hb as <-. rewrite decide_False by lia.
    rewrite Hi, (block_at_last _ _ Hlast).
    assert (r ∈ chain s) as Hr%(wf_chain _ Hwf)%lookup_lt_is_Some_2.
    { apply last_Some in Hlast as [l ->]. set_solver. }
    destruct Hr as [b' Hb']. exists b'. split; [done|]. simpl.
    rewrite (list_lookup_total_correct _ _ _ Hb') in Hp.
    apply proof_of_work_loop_sound in Hp as (? & ? & ?). done.
  - by apply IH.
Qed.

(** X1. In every state of a run, the proof of the block at a position [i > 1]
    is the least non-negative integer that [valid_proof] accepts against
    the proof of the block at position [i - 1]. *)
Theorem chain_proofs_least (t : gmap Z Row) (s : State) (i : nat) (b : Block) :
  reachable t s → (1 < i)%nat → block_at s i = Some b →
  ∃ b', block_at s (i - 1) = Some b' ∧
        0 ≤ proof b ∧ valid_proof (proof b') (proof b) = true ∧
        ∀ q, 0 ≤ q → valid_proof (proof b') q = true → proof b ≤ q.
Proof.
  intros Hs Hi Hb. destruct i as [|[|i]]; [lia|lia|].
  replace (S (S i) - 1)%nat with (S i) by lia.
  destruct (reachable_proofs t s i b Hs Hb) as (b' & Hb' & H0 & Hv & Hmin).
  exists b'. repeat split; [done..|].
  intros q Hq Hvq. destruct (decide (proof b ≤ q)) as [|Hlt]; [done|].
  rewrite Hmin in Hvq; [done|lia].
Qed.

(** ** The genesis block *)

Lemma is_max_key_unique (t : gmap Z Row) m m' :
  is_max_key t m → is_max_key t m' → m = m'.
Proof. intros [Hm Hle] [Hm' Hle']. apply Hle in Hm'. apply Hle' in Hm. lia. Qed.

(** A table whose largest index is below the largest SQLite [INTEGER]
    has a key within 64 bits for a block whose index is within 64 bits. *)
Lemma saved_index_int64 (t : gmap Z Row) i :
  int64 i = true →
  (∀ m, is_max_key t m → m < 9223372036854775807) →
  int64 (saved_index t i) = true.
Proof.
  intros Hi Ht. unfold saved_index. destruct (t !! i) eqn:Hk; [|done].
  destruct (max_key t) as [m|] eqn:Hm; [|done].
  apply max_key_Some in Hm. pose proof (Ht m Hm) as Hlt.
  destruct Hm as [_ Hmax]. specialize (Hmax i). rewrite Hk in Hmax.
  assert (i ≤ m) by eauto. apply int64_spec in Hi. apply int64_spec. lia.
Qed.

(** X5. On a table whose largest index is below [2^63 - 1], the largest
    SQLite [INTEGER], [__init__] returns. The chain has one block, with
    [previous_hash] ["1"], proof 100, the time of the call and no
    transaction, and the pool is empty. The index of the block is 1 when
    the table has no row of index 1, and the one after the largest index of
    the table otherwise; the table has gained the row of the block, under
    an index it did not hold. *)
Theorem genesis_on_table (t : gmap Z Row) (now : pyfloat) :
  (∀ m, is_max_key t m → m < 9223372036854775807) →
  ∃ s b,
    __init__ now (boot t) = Ok tt s ∧
    length (chain s) = 1%nat ∧ block_at s 1 = Some b ∧
    previous_hash b = PStr (str "1") ∧ proof b = 100 ∧ timestamp b = now ∧
    block_transactions s b = [] ∧ pool s = [] ∧
    (t !! 1 = None → index b = 1) ∧
    (∀ m, is_Some (t !! 1) → is_max_key t m → index b = m + 1) ∧
    t !! index b = None ∧
    db s = <[index b := {| row_timestamp := now; row_proof := 100;
                           row_previous_hash := PStr (str "1") |}]> t.
Proof.
  intros Ht. rewrite init_spec. simpl.
  rewrite (saved_index_int64 t 1) by done.
  eexists _, _. split; [reflexivity|].
  simpl. repeat split.
  - intros Ht1. by apply saved_index_fresh.
  - intros m Ht1 Hm. destruct (max_key_is_Some t 1 Ht1) as [m' Hm'].
    rewrite (saved_index_conflict t 1 m') by done.
    simpl. f_equal. apply (is_max_key_unique t); [by apply max_key_Some|done].
  - apply saved_index_not_key.
Qed.

Lemma reachable_genesis t s :
  reachable t s →
  ∃ b, block_at s 1 = Some b ∧ previous_hash b = PStr (str "1") ∧
       proof b = 100 ∧ block_transactions s b = [].
Proof.
  revert s. apply reachable_states_ind.
  - intros now s0. eexists. by rewrite block_at_sealed by apply wf_boot.
  - intros s r fuel now p Hs (b & Hb & ? & ? & Htx) Hlast Hp.
    pose proof (reachable_wf _ _ Hs) as Hwf. exists b.
    rewrite block_at_sealed by done.
    rewrite decide_False by (apply block_at_length in Hb; lia).
    repeat split; [done..|]. unfold block_transactions in *. simpl.
    apply block_at_Some in Hb as (r' & _ & _ & Hr').
    rewrite lookup_total_app_l; [done|]. by eapply wf_blocks.
  - intros s r tx Hs (b & Hb & ? & ? & Htx) Hlast.
    pose proof (reachable_wf _ _ Hs) as Hwf. exists b.
    repeat split; [done..|]. unfold block_transactions in *. simpl.
    apply block_at_Some in Hb as (r' & _ & _ & Hr').
    rewrite list_lookup_total_insert_ne; [done|].
    intros Heq. by destruct (wf_blocks _ Hwf _ _ Hr') as [_ []].
Qed.

(** X6. In every state of a run, the block at position 1 has proof 100 and no
    transaction, and it is the only block of the chain whose
    [previous_hash] is ["1"]. *)
Theorem genesis_sentinel (t : gmap Z Row) (s : State) (i : nat) (b : Block) :
  reachable t s → block_at s i = Some b →
  (previous_hash b = PStr (str "1") ↔ i = 1%nat) ∧
  (i = 1%nat → proof b = 100 ∧ block_transactions s b = []).
Proof.
  intros Hs Hb. destruct (reachable_genesis t s Hs) as (g & Hg & Hprev & ? & ?).
  split.
  - split.
    + intros Hone. destruct i as [|[|i]]; [done|done|].
      destruct (reachable_linked t s i b Hs Hb) as (b' & _ & Hlink).
      rewrite Hlink in Hone. injection Hone as Hone.
      pose proof (sha256_hexdigest_length (encode (json_dumps (block_value s b'))))
        as Hlen.
      unfold hash in Hone. by rewrite Hone in Hlen.
    + intros ->. by rewrite Hg in Hb; injection Hb as <-.
  - intros ->. by rewrite Hg in Hb; injection Hb as <-.
Qed.


(** ** What calls leave as it is *)

Lemma step_reachable t s s' : reachable t s → step s s' → reachable t s'.
Proof.
  intros Hs Hstep. revert Hs.
  destruct Hstep as [s fuel now r s' Hmine|s a b c i s' Htx]; intros Hs.
  - by eapply reachable_mine.
  - by eapply reachable_new_transaction.
Qed.

Lemma rtc_step_reachable t s s' : reachable t s → rtc step s s' → reachable t s'.
Proof.
  intros Hs Hsteps. induction Hsteps as [|s s1 s' Hstep _ IH]; [done|].
  by eapply IH, step_reachable.
Qed.

Lemma chain_value_sealed s b i :
  wf s →
  chain_value (sealed s b i) =
  chain_value s ++ [block_value (sealed s b i) (with_index b i)].
Proof.
  intros Hwf. unfold chain_value. simpl. rewrite fmap_app. simpl.
  rewrite list_lookup_total_middle by done. f_equal.
  apply list_fmap_ext. intros k r Hr.
  assert (is_Some (blocks s !! r)) as [b' Hb'].
  { apply lookup_lt_is_Some_2, (wf_chain _ Hwf). by eapply list_elem_of_lookup_2. }
  rewrite lookup_total_app_l by (by eapply lookup_lt_Some).
  apply block_value_sealed.
  rewrite (list_lookup_total_correct _ _ _ Hb'). by eapply wf_blocks.
Qed.

Lemma chain_value_submitted s t : wf s → chain_value (submitted s t) = chain_value s.
Proof.
  intros Hwf. unfold chain_value. simpl.
  apply list_fmap_ext. intros k r Hr.
  assert (is_Some (blocks s !! r)) as [b' Hb'].
  { apply lookup_lt_is_Some_2, (wf_chain _ Hwf). by eapply list_elem_of_lookup_2. }
  apply block_value_submitted.
  rewrite (list_lookup_total_correct _ _ _ Hb').
  intros Heq. by destruct (wf_blocks _ Hwf _ _ Hb') as [_ []].
Qed.

Lemma step_chain_value t s s' :
  reachable t s → step s s' → chain_value s `prefix_of` chain_value s'.
Proof.
  intros Hs Hstep. revert Hs.
  destruct Hstep as [s fuel now resp s' Hmine|s a b c i s' Htx]; intros Hs;
    pose proof (reachable_wf _ _ Hs) as Hwf;
    destruct (reachable_last _ _ Hs) as [r Hlast].
  - destruct resp as [resp code].
    destruct (mine_Ok _ _ _ _ _ _ _ Hlast Hmine) as (p & _ & _ & _ & ->).
    rewrite chain_value_sealed by done. by eexists.
  - rewrite (new_transaction_spec _ _ _ _ _ Hlast) in Htx.
    injection Htx as _ <-. by rewrite chain_value_submitted.
Qed.

Lemma chain_value_length s : length (chain_value s) = length (chain s).
Proof. unfold chain_value. by rewrite length_fmap. Qed.

(** X7. [full_chain] changes nothing, and its [length] is the number of the
    blocks it lists. After any further calls of [mine] and
    [new_transaction], it lists the same blocks, with the same contents,
    followed by the blocks mined since. *)
Theorem full_chain_grows (t : gmap Z Row) (s s' : State) :
  reachable t s → rtc step s s' →
  ∃ l l',
    full_chain s =
    Done (Json (PDict [(str "chain", PList l);
                       (str "length", PInt (Z.of_nat (length l)))]), 200) s ∧
    full_chain s' =
    Done (Json (PDict [(str "chain", PList (l ++ l'));
                       (str "length", PInt (Z.of_nat (length (l ++ l'))))]), 200) s'.
Proof.
  intros Hs Hsteps.
  assert (chain_value s `prefix_of` chain_value s') as [l' Hl'].
  { induction Hsteps as [|s s1 s' Hstep _ IH]; [done|].
    etrans; [by eapply step_chain_value|]. by eapply IH, step_reachable. }
  exists (chain_value s), l'. unfold full_chain.
  by rewrite <- Hl', !chain_value_length.
Qed.

(** ** What calls in a run raise *)

(** X8. In a state of a run, [new_transaction] returns, and [mine] raises
    no exception but [OverflowError], from the [INSERT], with the chain and
    the table as before. [mine] returns when its search finds a proof
    within 64 bits and the key of the new block is within 64 bits. *)
Theorem run_raises_only_overflow (t : gmap Z Row) (s : State) :
  reachable t s →
  (∀ fuel now e s',
     mine fuel now s = Raise e s' →
     e = OverflowError ∧ chain s' = chain s ∧ db s' = db s) ∧
  (∀ fuel now r p,
     last (chain s) = Some r →
     proof_of_work_loop fuel (proof (blocks s !!! r)) 0 = Some p →
     int64 p = true →
     int64 (saved_index (db s) (Z.of_nat (length (chain s)) + 1)) = true →
     ∃ resp s', mine fuel now s = Ok (resp, 200) s') ∧
  (∀ sender recipient amount,
     ∃ i s', new_transaction sender recipient amount s = Ok i s').
Proof.
  intros Hs. destruct (reachable_last _ _ Hs) as [r Hlast]. split; [|split].
  - intros fuel now e s' Hmine.
    by destruct (mine_Raise _ _ _ _ _ _ Hlast Hmine) as (? & ? & ? & _).
  - intros fuel now r' p Hlast' Hp Hp64 Hi. by eapply mine_storable.
  - intros a b c. rewrite (new_transaction_spec _ _ _ _ _ Hlast). eauto.
Qed.

(** ** What [mine] answers *)

(** X9. The answer of [mine] describes the row the call has added to the
    table: the row is under [block_index], an index the table did not
    hold, with the time of the call and the [proof] and [previous_hash] of
    the answer; the other rows are as before. [block_index] is the length
    of the new chain when the table has no row of that index, and the index
    after the largest one of the table otherwise. *)
Theorem mine_answer_persisted (t : gmap Z Row) (s s' : State) (fuel : nat)
    (now : pyfloat) (resp : Response) (code : Z) :
  reachable t s → mine fuel now s = Ok (resp, code) s' →
  code = 200 ∧
  db s !! block_index resp = None ∧
  db s' = <[block_index resp :=
              {| row_timestamp := now; row_proof := response_proof resp;
                 row_previous_hash := response_previous_hash resp |}]> (db s) ∧
  (db s !! (Z.of_nat (length (chain s')) ) = None →
   block_index resp = Z.of_nat (length (chain s'))) ∧
  (∀ m, is_Some (db s !! (Z.of_nat (length (chain s')))) →
        is_max_key (db s) m → block_index resp = m + 1).
Proof.
  intros Hs Hmine. destruct (reachable_last _ _ Hs) as [r Hlast].
  destruct (mine_Ok _ _ _ _ _ _ _ Hlast Hmine) as (p & _ & -> & -> & ->). simpl.
  rewrite length_app. simpl.
  replace (Z.of_nat (length (chain s) + 1)) with (Z.of_nat (length (chain s)) + 1)
    by lia.
  split; [done|]. split; [apply saved_index_not_key|]. split; [done|]. split.
  - intros Hk. by apply saved_index_fresh.
  - intros m Hk Hm. destruct (max_key_is_Some _ _ Hk) as [m' Hm'].
    rewrite (saved_index_conflict _ _ m') by done.
    f_equal. apply (is_max_key_unique (db s)); [by apply max_key_Some|done].
Qed.

(** ** The index [new_transaction] announces *)

(** X10. In a run on a table that holds none of the indices up to the length of
    the chain plus one, the index [new_transaction] returns is the index of
    the block the next [mine] returns, and that block holds the
    transaction. *)
Theorem new_transaction_index_kept (t : gmap Z Row) (s s1 s2 : State)
    (sender recipient amount : pyval) (i : Z) (fuel : nat) (now : pyfloat)
    (resp : Response) (code : Z) :
  reachable t s →
  (∀ k, 1 ≤ k ≤ Z.of_nat (length (chain s)) + 1 → t !! k = None) →
  new_transaction sender recipient amount s = Ok i s1 →
  mine fuel now s1 = Ok (resp, code) s2 →
  i = Z.of_nat (length (chain s)) + 1 ∧
  block_index resp = i ∧
  {| sender := sender; recipient := recipient; amount := amount |}
    ∈ response_transactions resp.
Proof.
  intros Hs Ht Htx Hmine. pose proof (reachable_wf _ _ Hs) as Hwf.
  destruct (reachable_last _ _ Hs) as [r Hlast].
  destruct (reachable_indexed t s Hs) as [Hidx Hkeys];
    [intros k Hk; apply Ht; lia|].
  assert (reachable t s1) as Hs1 by (by eapply reachable_new_transaction).
  rewrite (new_transaction_spec _ _ _ _ _ Hlast) in Htx.
  injection Htx as <- <-.
  assert (is_Some (blocks s !! r)) as [b Hb].
  { apply lookup_lt_is_Some_2, (wf_chain _ Hwf).
    apply last_Some in Hlast as [l ->].
    apply elem_of_app. right. by apply list_elem_of_singleton. }
  rewrite (list_lookup_total_correct _ _ _ Hb).
  rewrite (Hidx (length (chain s)) b) by (by rewrite (block_at_last _ _ Hlast)).
  split; [done|].
  apply (mine_Ok _ _ _ r) in Hmine as (p & _ & -> & _ & _); [|done].
  simpl. split.
  - apply saved_index_fresh, eq_None_not_Some. rewrite Hkeys.
    rewrite Ht by lia. intros [[? [=]]|?]. lia.
  - rewrite lookup_total_app_l
      by (rewrite length_insert; apply (wf_pool _ Hwf)).
    rewrite list_lookup_total_insert_eq by apply (wf_pool _ Hwf).
    apply elem_of_app. right. by apply list_elem_of_singleton.
Qed.

(** ** [new_block] with a truthy [previous_hash] *)

(** X11. With a truthy [previous_hash], [new_block] does not raise
    [IndexError], on an empty chain either. It returns exactly when the
    table takes the block: the proof is within 64 bits, [sqlite3] binds the
    [previous_hash], and the key of the block is within 64 bits. The block
    it returns is a new object at the end of the chain, with the proof, the
    time and the [previous_hash] given, and the transactions of the pool;
    the pool is a new, empty list. *)
Theorem new_block_truthy_returns (s : State) (now : pyfloat) (p : Z) (ph : pyval) :
  truthy ph = true →
  (∀ s', new_block now p ph s ≠ Raise IndexError s') ∧
  ((∃ r s', new_block now p ph s = Ok r s') ↔
   int64 p = true ∧ bind_param ph = None ∧
   int64 (saved_index (db s) (Z.of_nat (length (chain s)) + 1)) = true) ∧
  (∀ r s', new_block now p ph s = Ok r s' →
     ∃ b,
       r = length (blocks s) ∧
       chain s' = chain s ++ [length (blocks s)] ∧
       blocks s' !! length (blocks s) = Some b ∧
       (∀ r0 b', blocks s !! r0 = Some b' → blocks s' !! r0 = Some b') ∧
       previous_hash b = ph ∧ proof b = p ∧ timestamp b = now ∧
       transactions b = current_transactions s ∧
       current_transactions s' = length (lists s) ∧
       lists s' = lists s ++ [[]]).
Proof.
  intros Hph.
  assert (effective_previous_hash s ph = Some ph) as Heff
    by (unfold effective_previous_hash; by rewrite Hph).
  split; [|split].
  - intros s' [(Hnone & _)|(ph' & _ & _ & [?|[?|?]] & _)]%new_block_Raise;
      [by rewrite Heff in Hnone|done..].
  - split.
    + intros (r & s' & (ph' & Hph' & Hst & _)%new_block_Ok).
      rewrite Heff in Hph'. injection Hph' as <-.
      by apply storable_fresh_block_inv in Hst.
    + intros (Hp & Hb & Hi). eexists _, _.
      apply new_block_storable; [done|]. by apply storable_fresh_block.
  - intros r s' (ph' & Hph' & _ & -> & ->)%new_block_Ok.
    rewrite Heff in Hph'. injection Hph' as <-. eexists. simpl.
    rewrite list_lookup_middle by done. repeat split.
    intros r0 b' Hb'. by apply lookup_app_l_Some.
Qed.


(** * The handler of [/transactions/new] *)

Lemma dict_get_Some_key (d : list (pystr * pyval)) k v :
  dict_get d k = Some v → k ∈ d.*1.
Proof.
  induction d as [|[k' v'] d IH]; simpl; [done|].
  case_decide as Hk; [intros _; subst; left|intros ?%IH; by right].
Qed.

Lemma dict_get_None_key (d : list (pystr * pyval)) k :
  dict_get d k = None → k ∉ d.*1.
Proof.
  induction d as [|[k' v'] d IH]; simpl; [by intros _ ?%elem_of_nil|].
  case_decide as Hk; [done|]. intros Hnone%IH [->|?]%elem_of_cons; done.
Qed.

(** On a dict, a list or a string the tests of the required fields change
    nothing and raise nothing. *)
Lemma all_in_dict d ks s :
  all_in (PDict d) ks s = Done (forallb (λ k, bool_decide (k ∈ d.*1)) ks) s.
Proof.
  induction ks as [|k ks IH]; simpl; [done|].
  unfold mbind, HM_bind, mret, HM_ret. simpl.
  destruct (bool_decide (k ∈ d.*1)); [apply IH|done].
Qed.

Lemma all_in_list l ks s :
  all_in (PList l) ks s =
  Done (forallb (λ k, existsb (λ x, equals_str x k) l) ks) s.
Proof.
  induction ks as [|k ks IH]; simpl; [done|].
  unfold mbind, HM_bind, mret, HM_ret. simpl.
  destruct (existsb _ l); [apply IH|done].
Qed.

Lemma all_in_str x ks s :
  all_in (PStr x) ks s = Done (forallb (λ k, occurs_in k x) ks) s.
Proof.
  induction ks as [|k ks IH]; simpl; [done|].
  unfold mbind, HM_bind, mret, HM_ret. simpl.
  destruct (occurs_in k x); [apply IH|done].
Qed.

(** X12. A body that is a JSON object with the three fields: in a state of a
    run, the handler calls [new_transaction] with the values of the fields
    and answers 201, with a message that names the index the call returned.
    The transaction is at the end of the pool; the chain and the table are
    as before. *)
Theorem route_created (t : gmap Z Row) (s : State) (d : list (pystr * pyval))
    (a b c : pyval) :
  reachable t s →
  dict_get d (str "sender") = Some a →
  dict_get d (str "recipient") = Some b →
  dict_get d (str "amount") = Some c →
  ∃ i s',
    new_transaction a b c s = Ok i s' ∧
    new_transaction_route (PDict d) s =
    Done (Json (PDict [(str "message",
                        PStr (str "Transaksi akan dimasukkan ke dalam blok " ++
                              str_of_int i))]), 201) s' ∧
    pool s' = pool s ++ [{| sender := a; recipient := b; amount := c |}] ∧
    chain s' = chain s ∧ blocks s' = blocks s ∧ db s' = db s.
Proof.
  intros Hs Ha Hb Hc. destruct (reachable_last _ _ Hs) as [r Hlast].
  eexists _, _. split; [by apply new_transaction_spec|].
  split; [|split; [by apply pool_submitted, (reachable_wf t)|done]].
  unfold new_transaction_route, mbind at 1, HM_bind at 1.
  rewrite all_in_dict. unfold required. simpl.
  rewrite !bool_decide_eq_true_2 by (by eapply dict_get_Some_key). simpl.
  unfold mbind, HM_bind, getitem, call. rewrite Ha, Hb, Hc. simpl.
  by rewrite (new_transaction_spec _ _ _ _ _ Hlast).
Qed.

(** X13. A body that is a JSON object without one of the three fields: in every
    state the handler answers 400 with its text, and changes nothing. *)
Theorem route_incomplete (s : State) (d : list (pystr * pyval)) (k : pystr) :
  k ∈ required → k ∉ d.*1 →
  new_transaction_route (PDict d) s =
  Done (Text (str "Data transaksi tidak lengkap"), 400) s.
Proof.
  intros Hk Hd. unfold new_transaction_route, mbind, HM_bind.
  rewrite all_in_dict.
  assert (forallb (λ k, bool_decide (k ∈ d.*1)) required = false) as ->; [|done].
  apply not_true_is_false. intros Hall.
  apply Is_true_true_2, forallb_True in Hall.
  rewrite Forall_forall in Hall. by apply Hall, bool_decide_unpack in Hk.
Qed.

(** X14. A body that is not a JSON object never adds a transaction, and never
    gets the answer 201. [None], a boolean or a number makes [TypeError]
    escape from the first test. A list that holds the three names, or a
    string in which the three names occur, passes the tests, and
    [TypeError] escapes from the access to the first field; otherwise the
    answer is 400. The state is as before in every case. *)
Theorem route_not_an_object (s : State) (values : pyval) :
  (∀ d, values ≠ PDict d) →
  (new_transaction_route values s = Escaped (ClassError TypeError) s ∨
   new_transaction_route values s =
   Done (Text (str "Data transaksi tidak lengkap"), 400) s) ∧
  (∀ l, values = PList l →
        (∀ k, k ∈ required → PStr k ∈ l) →
        new_transaction_route values s = Escaped (ClassError TypeError) s) ∧
  (values = PNone ∨ (∃ z, values = PInt z) ∨ (∃ b, values = PBool b) ∨
   (∃ f, values = PFloat f) →
   new_transaction_route values s = Escaped (ClassError TypeError) s).
Proof.
  intros Hd. split; [|split].
  - destruct values as [| | | |x|l|d]; [by left..| | |by destruct (Hd d)].
    + unfold new_transaction_route, mbind, HM_bind. rewrite all_in_str.
      destruct (forallb _ required); [by left|by right].
    + unfold new_transaction_route, mbind, HM_bind. rewrite all_in_list.
      destruct (forallb _ required); [by left|by right].
  - intros l -> Hl. unfold new_transaction_route, mbind, HM_bind.
    rewrite all_in_list.
    assert (forallb (λ k, existsb (λ x, equals_str x k) l) required = true)
      as ->; [|done].
    apply Is_true_true_1, forallb_True, Forall_forall. intros k Hk%Hl.
    apply Is_true_true_2, existsb_exists. exists (PStr k).
    split; [by apply list_elem_of_In|]. simpl. by apply bool_decide_eq_true_2.
  - by intros [->|[[z ->]|[[b ->]|[f ->]]]].
Qed.


(** * [save_block_to_db] in every state *)

(** X15. In every state, [save_block_to_db] returns exactly when the table
    takes the block. When it returns, it has added one row, under an index
    the table did not hold, and left the rows of the table as they were;
    among the objects only the index of the block can have changed, and it
    has not when the table had no row of that index. When it raises, the
    exception is not [IntegrityError], and the table, the lists, the chain
    and the pool are as before. *)
Theorem save_keeps_rows (s : State) (r : ref) (b : Block) :
  blocks s !! r = Some b →
  ((∃ s', save_block_to_db r s = Ok tt s') ↔ storable (db s) b = true) ∧
  (∀ s', save_block_to_db r s = Ok tt s' →
     ∃ i,
       db s !! i = None ∧
       db s' = <[i := {| row_timestamp := timestamp b; row_proof := proof b;
                         row_previous_hash := previous_hash b |}]> (db s) ∧
       (∀ k row, db s !! k = Some row → db s' !! k = Some row) ∧
       size (db s') = S (size (db s)) ∧
       blocks s' = <[r := with_index b i]> (blocks s) ∧
       (db s !! index b = None → i = index b ∧ blocks s' = blocks s) ∧
       lists s' = lists s ∧ chain s' = chain s ∧
       current_transactions s' = current_transactions s) ∧
  (∀ e s', save_block_to_db r s = Raise e s' →
     e ≠ IntegrityError ∧ db s' = db s ∧ lists s' = lists s ∧
     chain s' = chain s ∧ current_transactions s' = current_transactions s).
Proof.
  intros Hb. pose proof (saved_index_not_key (db s) (index b)) as Hk.
  split; [|split].
  - split.
    + intros [s' Hsave]. by apply (save_block_to_db_Ok _ _ _ _ _ Hb) in Hsave as [? _].
    + intros Hst. eexists. by apply save_block_to_db_storable.
  - intros s' [_ ->]%(save_block_to_db_Ok _ _ _ _ _ Hb).
    exists (saved_index (db s) (index b)). simpl.
    split; [done|]. split; [done|].
    split; [|split; [|split; [done|split; [|done]]]].
    + intros k row Hrow. rewrite lookup_insert_ne; [done|].
      by intros <-; rewrite Hk in Hrow.
    + by apply map_size_insert_None.
    + intros Hfresh. rewrite saved_index_fresh by done. split; [done|].
      by rewrite with_index_id, list_insert_id.
  - intros e s' (_ & He & ? & ? & ? & ?)%(save_block_to_db_Raise _ _ _ _ _ Hb).
    split; [by destruct He as [->|[->| ->]]|done].
Qed.

(** * The digest and the serialization *)

(** X16. [hash] returns 64 digits of base 16, in lower case. *)
Theorem hash_hex_digits (v : pyval) :
  length (hash v) = 64%nat ∧ Forall hex_char (hash v).
Proof.
  split; [apply sha256_hexdigest_length|apply sha256_hexdigest_hex].
Qed.

(** Induction on values, through the lists and the dicts. *)
Lemma pyval_deep_ind (P : pyval → Prop) :
  P PNone → (∀ b, P (PBool b)) → (∀ z, P (PInt z)) → (∀ f, P (PFloat f)) →
  (∀ x, P (PStr x)) →
  (∀ l, Forall P l → P (PList l)) →
  (∀ d, Forall (λ kv, P kv.2) d → P (PDict d)) →
  ∀ v, P v.
Proof.
  intros HN HB HI HF HS HL HD. fix IH 1.
  intros [| | | | |l|d]; [apply HN|apply HB|apply HI|apply HF|apply HS| |].
  - apply HL. induction l as [|x l IHl]; constructor; [apply IH|apply IHl].
  - apply HD. induction d as [|[k x] d IHd]; constructor; [apply IH|apply IHd].
Qed.

Lemma str_app (s1 s2 : string) : str (s1 +:+ s2) = str s1 ++ str s2.
Proof.
  induction s1 as [|c s1 IH]; [done|].
  change (N_of_ascii c :: str (s1 +:+ s2) = N_of_ascii c :: (str s1 ++ str s2)).
  by rewrite IH.
Qed.

Lemma pretty_N_go_printable x s :
  printable (str s) → printable (str (pretty_N_go x s)).
Proof.
  revert s. induction (N.lt_wf_0 x) as [x _ IH]; intros s Hs.
  assert (x = 0 ∨ 0 < x)%N as [->|?] by lia; [by rewrite pretty_N_go_0|].
  rewrite pretty_N_go_step by done. apply IH; [by apply N.div_lt|].
  unfold str; fold str. constructor; [|done].
  unfold pretty_N_char. repeat case_match; vm_compute; by split.
Qed.

(** A literal of printable characters. *)
Ltac printable_literal :=
  unfold printable; apply (bool_decide_unpack _); vm_compute; exact I.

Lemma str_of_int_printable z : printable (str_of_int z).
Proof.
  unfold str_of_int, pretty, pretty_Z. destruct z as [|p|p].
  - printable_literal.
  - unfold pretty, pretty_positive, pretty, pretty_N.
    case_decide; [done|]. apply pretty_N_go_printable. printable_literal.
  - rewrite str_app. apply Forall_app. split; [printable_literal|].
    unfold pretty, pretty_positive, pretty, pretty_N.
    case_decide; [done|]. apply pretty_N_go_printable. printable_literal.
Qed.

Lemma hex_digit_printable x : (32 ≤ hex_digit (N.land x 0xF) ≤ 126)%N.
Proof.
  destruct (hex_digit_hex_char (N.land x 0xF) (land_15_lt x)); lia.
Qed.

Lemma hex4_printable n : printable (hex4 n).
Proof.
  unfold hex4, printable.
  repeat (apply Forall_cons_2; [apply hex_digit_printable|]). apply Forall_nil_2.
Qed.

Lemma escape_char_printable c : printable (escape_char c).
Proof.
  unfold escape_char.
  repeat (case_match; [by repeat constructor|]).
  case_match eqn:Hc.
  { apply andb_true_iff in Hc as [?%N.leb_le ?%N.leb_le]. by repeat constructor. }
  case_match; repeat (apply Forall_app; split);
    try apply hex4_printable; by repeat constructor.
Qed.

Lemma py_encode_basestring_ascii_printable x :
  printable (py_encode_basestring_ascii x).
Proof.
  unfold py_encode_basestring_ascii. repeat (apply Forall_app; split).
  - by repeat constructor.
  - apply Forall_bind, Forall_forall. intros c _. apply escape_char_printable.
  - by repeat constructor.
Qed.

Lemma join_printable sep l :
  printable sep → Forall printable l → printable (join sep l).
Proof.
  intros Hsep. induction 1 as [|x l Hx Hl IH]; simpl; [constructor|].
  destruct l; [done|]. by repeat (apply Forall_app; split).
Qed.

Lemma encode_printable x : printable x → encode x = x.
Proof.
  unfold encode. induction 1 as [|c x Hc Hx IH]; [done|].
  rewrite bind_cons, IH. unfold utf8_char.
  destruct (N.ltb_spec c 0x80); [done|lia].
Qed.


Lemma printable_app x y : printable x → printable y → printable (x ++ y).
Proof. intros Hx Hy. by apply Forall_app. Qed.

Lemma dump_item_printable kv : printable kv.2 → printable (dump_item kv).
Proof.
  intros Hv. unfold dump_item.
  apply printable_app; [apply py_encode_basestring_ascii_printable|].
  apply printable_app; [printable_literal|done].
Qed.

Lemma json_dumps_list l :
  json_dumps (PList l) = str "[" ++ join (str ", ") (json_dumps <$> l) ++ str "]".
Proof. reflexivity. Qed.

Lemma json_dumps_dict d :
  json_dumps (PDict d) =
  str "{" ++
  join (str ", ")
    (dump_item <$> sort_items ((λ '(k, v), (k, json_dumps v)) <$> d)) ++
  str "}".
Proof. reflexivity. Qed.

Lemma json_dumps_printable (v : pyval) :
  (∀ f, printable (float_repr f)) → printable (json_dumps v).
Proof.
  intros Hf. induction v as [|b|z|f|x|l IH|d IH] using pyval_deep_ind.
  - printable_literal.
  - destruct b; printable_literal.
  - apply str_of_int_printable.
  - apply Hf.
  - apply py_encode_basestring_ascii_printable.
  - rewrite json_dumps_list. apply printable_app; [printable_literal|].
    apply printable_app; [|printable_literal].
    apply join_printable; [printable_literal|]. by apply Forall_fmap.
  - rewrite json_dumps_dict. apply printable_app; [printable_literal|].
    apply printable_app; [|printable_literal].
    apply join_printable; [printable_literal|]. apply Forall_fmap.
    unfold sort_items. rewrite merge_sort_Permutation. apply Forall_fmap.
    eapply Forall_impl; [exact IH|]. intros [k x] Hx.
    by apply dump_item_printable.
Qed.

(** X17. When the text of a float is printable ASCII, so is the serialization
    of every value, whatever characters its strings hold: [encode] gives one
    octet for each character, and [hash] is the digest of these. *)
Theorem hash_serialization_ascii (v : pyval) :
  (∀ f, printable (float_repr f)) →
  printable (json_dumps v) ∧
  encode (json_dumps v) = json_dumps v ∧
  hash v = sha256_hexdigest (json_dumps v).
Proof.
  intros Hf. pose proof (json_dumps_printable v Hf) as Hv.
  split; [done|]. unfold hash. by rewrite encode_printable.
Qed.

(** * What [/chain] serves *)

Lemma field_block_value s b :
  field (block_value s b) (str "index") (PInt (index b)) ∧
  field (block_value s b) (str "proof") (PInt (proof b)) ∧
  field (block_value s b) (str "previous_hash") (previous_hash b).
Proof.
  repeat split; eexists; (split; [reflexivity|]); unfold dict_get;
    repeat (rewrite decide_False by (intros Heq; vm_compute in Heq; discriminate));
    by rewrite decide_True.
Qed.

Lemma chain_value_lookup s i v :
  wf s → chain_value s !! i = Some v →
  ∃ b, block_at s (S i) = Some b ∧ v = block_value s b.
Proof.
  intros Hwf (r & -> & Hr)%list_lookup_fmap_Some. simpl. rewrite Hr. simpl.
  assert (is_Some (blocks s !! r)) as [b Hb].
  { apply lookup_lt_is_Some_2, (wf_chain _ Hwf). by eapply list_elem_of_lookup_2. }
  exists b. by rewrite (list_lookup_total_correct _ _ _ Hb).
Qed.

Lemma field_inj v k x y : field v k x → field v k y → x = y.
Proof. intros (d & -> & Hx) (d' & [= <-] & Hy). congruence. Qed.

(** X18. In a state of a run, [full_chain] answers 200 and changes nothing, and
    the chain it serves can be checked from the answer alone: [length] is
    the number of the dicts, the first dict has [previous_hash] ["1"] and
    proof 100, and each later dict has for [previous_hash] the digest
    [hash] gives for the dict before it, and a proof that [valid_proof]
    accepts against the proof of the dict before it. *)
Theorem served_chain_verifiable (t : gmap Z Row) (s s' : State) (resp : pyval)
    (code : Z) (l : list pyval) :
  reachable t s →
  full_chain s = Done (Json resp, code) s' →
  field resp (str "chain") (PList l) →
  s' = s ∧ code = 200 ∧
  field resp (str "length") (PInt (Z.of_nat (length l))) ∧
  (∀ v, l !! 0%nat = Some v →
        field v (str "previous_hash") (PStr (str "1")) ∧
        field v (str "proof") (PInt 100)) ∧
  (∀ i v v', l !! i = Some v → l !! S i = Some v' →
     field v' (str "previous_hash") (PStr (hash v)) ∧
     ∃ p p', field v (str "proof") (PInt p) ∧ field v' (str "proof") (PInt p') ∧
             valid_proof p p' = true).
Proof.
  intros Hs Hfull Hl. pose proof (reachable_wf _ _ Hs) as Hwf.
  unfold full_chain in Hfull. injection Hfull as <- <- <-.
  assert (l = chain_value s) as ->.
  { assert (field (PDict [(str "chain", PList (chain_value s));
                          (str "length", PInt (Z.of_nat (length (chain s))))])
              (str "chain") (PList (chain_value s))) as Hc.
    { eexists. split; [done|]. unfold dict_get. by rewrite decide_True. }
    by injection (field_inj _ _ _ _ Hl Hc). }
  split; [done|]. split; [done|]. split; [|split].
  - eexists. split; [done|]. unfold dict_get.
    rewrite decide_False by (intros Heq; vm_compute in Heq; discriminate).
    by rewrite decide_True, chain_value_length.
  - intros v (b & Hb & ->)%chain_value_lookup; [|done].
    destruct (reachable_genesis t s Hs) as (g & Hg & Hprev & Hproof & _).
    rewrite Hg in Hb. injection Hb as <-.
    destruct (field_block_value s g) as (_ & Hfp & Hfh).
    by rewrite Hprev in Hfh; rewrite Hproof in Hfp.
  - intros i v v' (b & Hb & ->)%chain_value_lookup
      (b' & Hb' & ->)%chain_value_lookup; [|done..].
    destruct (reachable_linked t s i b' Hs Hb') as (b0 & Hb0 & Hlink).
    destruct (reachable_proofs t s i b' Hs Hb') as (b1 & Hb1 & _ & Hvalid & _).
    rewrite Hb in Hb0, Hb1. injection Hb0 as <-. injection Hb1 as <-.
    destruct (field_block_value s b) as (_ & Hfp & _).
    destruct (field_block_value s b') as (_ & Hfp' & Hfh').
    rewrite Hlink in Hfh'. split; [done|]. by exists (proof b), (proof b').
Qed.


(** * The order of the items at any depth *)

Lemma json_dumps_same_value (v1 v2 : pyval) :
  same_value v1 v2 → json_dumps v1 = json_dumps v2.
Proof.
  revert v2. induction v1 as [|b|z|f|x|l1 IH|d1 IH] using pyval_deep_ind;
    intros v2 Hsame; inversion Hsame as [|? l2 Hl|? d d2 Hnd Hperm Hd]; subst;
    try done.
  - rewrite !json_dumps_list. do 3 f_equal. clear Hsame.
    induction Hl as [|x y l1 l2 Hxy Hl IHl]; [done|].
    apply Forall_cons in IH as [Hx IH]. simpl. f_equal; [by apply Hx|by apply IHl].
  - apply (json_dumps_dict_Permutation d1 d) in Hperm as Hdumps; [|done].
    rewrite Hdumps. rewrite Hperm in IH. clear Hsame Hdumps Hperm Hnd.
    rewrite !json_dumps_dict. do 5 f_equal.
    induction Hd as [|[k x] [k' y] d d2 [Hk Hxy] Hd IHd]; [done|].
    apply Forall_cons in IH as [Hx IH]. simpl in *. subst k'.
    f_equal; [f_equal; by apply Hx|by apply IHd].
Qed.

(** X19. Two values that differ only in the order of the items of their dicts,
    at any depth, have the same serialization and the same digest. *)
Theorem hash_item_order_deep (v1 v2 : pyval) :
  same_value v1 v2 → json_dumps v1 = json_dumps v2 ∧ hash v1 = hash v2.
Proof.
  intros Hsame%json_dumps_same_value. split; [done|].
  unfold hash. by rewrite Hsame.
Qed.

End Properties.

(** * Runs on concrete inputs *)

Example sha256_empty :
  sha256_hexdigest [] =
  str "e3b0c44298fc1c149afbf4c8996fb92427ae41e4649b934ca495991b7852b855".
Proof. vm_compute. reflexivity. Qed.

Example sha256_abc :
  sha256_hexdigest (encode (str "abc")) =
  str "ba7816bf8f01cfea414140de5dae2223b00361a396177a9cb410ff61f20015ad".
Proof. vm_compute. reflexivity. Qed.

(** The genesis block of a run that starts at time [1700000000.0]. *)
Example hash_genesis :
  hash (PDict genesis_items) =
  str "525afe96d81a5e16082be3818542c9dab09537ac6e961295c671877fcb12a431".
Proof. vm_compute. reflexivity. Qed.

(** Witness of C9. *)
Lemma hash_insertion_order_witness :
  hash (PDict genesis_items) = hash (PDict genesis_items) ∧
  hash (PDict genesis_items) = hash (PDict genesis_items_reversed).
Proof.
  apply (hash_insertion_order genesis_items genesis_items_reversed).
  - apply (bool_decide_unpack _). vm_compute. exact I.
  - symmetry. apply (reverse_Permutation genesis_items).
Defined.

(** A message of 56 octets: the padding takes a second block. *)
Example sha256_two_blocks :
  sha256_hexdigest (replicate 56 97%N) =
  str "b35439a4ac6f0948b6d6f9e3c6af0f5f590ce20f1bde7090ef7970686ec6738a".
Proof. vm_compute. reflexivity. Qed.

(** A second block, with a transaction whose recipient has the characters
    U+00E9, U+1F600, a line feed and a double quote. *)
Example hash_second_block :
  hash (PDict [(str "index", PInt 2); (str "timestamp", PFloat (seconds 1700000001));
               (str "transactions",
                PList [PDict [(str "sender", PStr (str "A"));
                              (str "recipient",
                               PStr (str "B" ++ [233; 128512; 10; 34]%N));
                              (str "amount", PInt 10)]]);
               (str "proof", PInt 35293);
               (str "previous_hash", PStr (hash (PDict genesis_items)))]) =
  str "24c680dae1c488a2dae9a5921478fa9bddb4f91e4743ea7a44c8da798ac558ed".
Proof. vm_compute. reflexivity. Qed.

Example valid_proof_100_35293 : valid_proof 100 35293 = true.
Proof. vm_compute. reflexivity. Qed.

Example valid_proof_100_0 : valid_proof 100 0 = false.
Proof. vm_compute. reflexivity. Qed.

Lemma genesis_state_reachable t :
  int64 (saved_index t 1) = true → reachable t (genesis_state t).
Proof.
  intros Hi. apply (reachable_init t (seconds 1700000000)).
  rewrite init_spec. simpl. by rewrite Hi.
Qed.

Lemma genesis_state_empty : reachable ∅ (genesis_state ∅).
Proof. by apply genesis_state_reachable. Qed.

Lemma genesis_state_empty_next :
  int64 (saved_index (db (genesis_state ∅)) 2) = true.
Proof. vm_compute. reflexivity. Qed.

(** From the genesis state, [mine] returns: 35293 is a valid proof for 100. *)
Lemma genesis_mine_returns (t : gmap Z Row) (txs : list Transaction) s1 :
  int64 (saved_index (db (genesis_state t)) 2) = true →
  submit_all txs (genesis_state t) = Ok tt s1 →
  ∃ resp s2, mine (Z.to_nat 35294) (seconds 1700000060) s1 = Ok (resp, 200) s2.
Proof.
  intros Hi Hsub.
  destruct (submit_all_frame _ _ _ _ Hsub) as (Hc & Hb & Hdb).
  apply (mine_returns s1 0%nat _ _ 35293); [by rewrite Hc|lia| |lia|].
  - rewrite Hb. vm_compute. reflexivity.
  - by rewrite Hc, Hdb.
Qed.

(** Witness of C1: a run on an empty table, with one call of [mine]. *)
Lemma chain_linkage_witness :
  ∃ (s : @State whole_floats) b b',
    reachable ∅ s ∧ block_at s 2 = Some b ∧ block_at s 1 = Some b' ∧
    previous_hash b = PStr (hash (block_value s b')).
Proof.
  destruct (genesis_mine_returns ∅ [] (genesis_state ∅) genesis_state_empty_next eq_refl)
    as (resp & s & Hmine).
  destruct (mine_inv ∅ _ _ _ _ _ _ genesis_state_empty Hmine)
    as [Hs Hlen].
  destruct (reachable_block_at ∅ s 2 Hs) as [b Hb]; [rewrite Hlen; simpl; lia|].
  destruct (chain_linkage ∅ s 2 b Hs) as (b' & Hb' & Hlink); [lia|exact Hb|].
  exists s, b, b'. exact (conj Hs (conj Hb (conj Hb' Hlink))).
Defined.

(** Witness of C2. *)
Lemma mined_proof_valid_witness :
  ∃ resp s', mine (Z.to_nat 35294) (seconds 1700000060) (genesis_state ∅) = Ok (resp, 200) s' ∧
    ∃ prev blk,
      length (chain s') = 2%nat ∧
      block_at s' 1 = Some prev ∧ block_at s' 2 = Some blk ∧
      response_proof resp = proof blk ∧
      valid_proof (proof prev) (proof blk) = true.
Proof.
  destruct (genesis_mine_returns ∅ [] (genesis_state ∅) genesis_state_empty_next eq_refl)
    as (resp & s' & Hmine).
  exists resp, s'. split; [exact Hmine|].
  exact (mined_proof_valid ∅ _ _ _ _ _ _ genesis_state_empty Hmine).
Defined.

(** Counterexample to C3: the table holds a row of index 1, as it does when
    the program is started a second time. The block at position 1 of the
    chain has index 2. *)
Lemma chain_index_stale_table :
  ∃ s b, reachable {[1 := stale_row]} s ∧
         block_at s 1 = Some b ∧ index b = 2 ∧ index b ≠ Z.of_nat 1.
Proof.
  exists (genesis_state {[1 := stale_row]}). eexists.
  split; [apply genesis_state_reachable; vm_compute; reflexivity|].
  split; [vm_compute; reflexivity|]. split; [reflexivity|done].
Qed.

(** Witness of C3, amended. *)
Lemma chain_index_fresh_table_witness :
  ∃ b, block_at (genesis_state ∅) 1 = Some b ∧ index b = 1.
Proof.
  apply (chain_index_fresh_table ∅ (genesis_state ∅) 1).
  - apply genesis_state_empty.
  - intros k _. apply lookup_empty.
  - simpl. lia.
Defined.

(** Witness of C4. *)
Lemma proof_of_work_least_witness :
  ∃ p fuel,
    (∀ fuel' (s : @State whole_floats), (fuel ≤ fuel')%nat →
       proof_of_work fuel' 100 s = Ok p s) ∧
    0 ≤ p ∧ valid_proof 100 p = true ∧
    ∀ q, 0 ≤ q → valid_proof 100 q = true → p ≤ q.
Proof.
  apply (proof_of_work_least 100). exists 35293.
  split; [lia|vm_compute; reflexivity].
Defined.

(** Witness of C5: two submissions after the genesis block, then [mine]. *)
Lemma mine_drains_pool_witness :
  let tx1 := {| sender := PStr (str "A"); recipient := PStr (str "B");
                amount := PInt 10 |} in
  let tx2 := {| sender := PStr (str "B"); recipient := PStr (str "C");
                amount := PInt 3 |} in
  ∃ s1 resp s2 blk,
    submit_all [tx1; tx2] (genesis_state ∅) = Ok tt s1 ∧
    mine (Z.to_nat 35294) (seconds 1700000060) s1 = Ok (resp, 200) s2 ∧
    pool s1 = [tx1; tx2] ∧
    block_at s2 (length (chain s2)) = Some blk ∧
    block_transactions s2 blk = [tx1; tx2] ∧
    response_transactions resp = [tx1; tx2] ∧
    pool s2 = [].
Proof.
  intros tx1 tx2.
  destruct (submit_all [tx1; tx2] (genesis_state ∅)) as [[] s1| |] eqn:Hsub;
    [|by vm_compute in Hsub..].
  destruct (genesis_mine_returns ∅ _ _ genesis_state_empty_next Hsub) as (resp & s2 & Hmine).
  destruct (mine_drains_pool ∅ _ _ _ _ _ _ _ _
              genesis_state_empty Hsub Hmine)
    as (blk & H0 & H1 & H2 & H3 & H4).
  exists s1, resp, s2, blk.
  exact (conj eq_refl (conj Hmine (conj H0 (conj H1 (conj H2 (conj H3 H4)))))).
Defined.

(** Counterexample to C6: on a table that holds a row of index 1, the
    genesis block has index 2. *)
Lemma genesis_stale_table :
  ∃ s b, __init__ (seconds 1700000000) (boot {[1 := stale_row]}) = Ok tt s ∧
         length (chain s) = 1%nat ∧ block_at s 1 = Some b ∧
         index b = 2 ∧ index b ≠ 1.
Proof.
  eexists _, _. split; [vm_compute; reflexivity|].
  split; [reflexivity|]. split; [reflexivity|]. split; [reflexivity|done].
Qed.

(** Witness of C6, amended. *)
Lemma genesis_fresh_table_witness :
  ∃ s b, __init__ (seconds 1700000000) (boot ∅) = Ok tt s ∧
         length (chain s) = 1%nat ∧ block_at s 1 = Some b ∧
         index b = 1 ∧ previous_hash b = PStr (str "1") ∧ proof b = 100.
Proof.
  apply (genesis_fresh_table (floats := whole_floats) ∅ (seconds 1700000000)), lookup_empty.
Defined.

(** Counterexample to C7: the table holds rows of indices 5 and
    [2^63 - 1]. The [INSERT] of a block of index 5 raises [IntegrityError];
    the block object gets the index [2^63], the second [INSERT] raises
    [OverflowError], and the block is not stored. *)
Lemma save_conflict_overflow :
  blocks brim_state !! 0%nat = Some block_5 ∧
  insert_row (index block_5) (row_of block_5) brim_state =
  Raise IntegrityError brim_state ∧
  ∃ s', save_block_to_db 0%nat brim_state = Raise OverflowError s' ∧
        blocks s' !! 0%nat = Some (with_index block_5 9223372036854775808) ∧
        db s' = db brim_state ∧
        db s' !! 9223372036854775808 = None.
Proof.
  assert (db brim_state !! 5 = Some stale_row) as Hrow
    by (vm_compute; reflexivity).
  split; [reflexivity|]. split.
  - apply insert_row_conflict. split; [reflexivity|]. split; [by eexists|done].
  - exists (reindexed brim_state 0%nat block_5 9223372036854775808).
    split; [|split; [reflexivity|split; [reflexivity|vm_compute; reflexivity]]].
    rewrite (save_block_to_db_spec brim_state 0%nat block_5 eq_refl).
    rewrite (saved_index_conflict _ _ 9223372036854775807);
      [reflexivity|by eexists|vm_compute; reflexivity].
Qed.

(** Witness of C7, amended. *)
Lemma save_conflict_reassigns_witness :
  ∃ m s',
    is_max_key (db stale_state) m ∧
    db stale_state !! (m + 1) = None ∧
    blocks s' !! 0%nat = Some (with_index block_5 (m + 1)) ∧
    (∀ r', r' ≠ 0%nat → blocks s' !! r' = blocks stale_state !! r') ∧
    (m + 1 ≤ 9223372036854775807 →
       save_block_to_db 0%nat stale_state = Ok tt s' ∧
       db s' = <[m + 1 := row_of block_5]> (db stale_state)) ∧
    (9223372036854775807 < m + 1 →
       save_block_to_db 0%nat stale_state = Raise OverflowError s' ∧
       db s' = db stale_state).
Proof.
  apply (save_conflict_reassigns stale_state 0%nat block_5).
  - reflexivity.
  - vm_compute. reflexivity.
Defined.

(** The same call, evaluated: the block gets the index 8. *)
Example save_conflict_example :
  save_block_to_db 0%nat stale_state =
  Ok tt {| blocks := [with_index block_5 8]; lists := [[]; []]; chain := [];
           current_transactions := 1%nat;
           db := <[8 := row_of block_5]> {[5 := stale_row; 7 := stale_row]} |}.
Proof. vm_compute. reflexivity. Qed.

(** Counterexample to C8: the table holds rows of indices 1 and
    [2^63 - 1], and the block to save is a genesis block, of index 1. The
    first [INSERT] raises [IntegrityError], and [save_block_to_db] does not
    return: [OverflowError] escapes from the second [INSERT]. *)
Lemma save_conflict_raises :
  insert_row 1 (row_of (blocks brim_genesis_state !!! 0%nat)) brim_genesis_state =
  Raise IntegrityError brim_genesis_state ∧
  (∃ s', save_block_to_db 0%nat brim_genesis_state = Raise OverflowError s') ∧
  ∀ s', save_block_to_db 0%nat brim_genesis_state ≠ Ok tt s'.
Proof.
  assert (db brim_genesis_state !! 1 = Some stale_row) as Hrow
    by (vm_compute; reflexivity).
  assert (save_block_to_db 0%nat brim_genesis_state =
          Raise OverflowError
            (reindexed brim_genesis_state 0%nat
               (blocks brim_genesis_state !!! 0%nat) 9223372036854775808))
    as Hraise.
  { rewrite (save_block_to_db_spec brim_genesis_state 0%nat _ eq_refl).
    rewrite (saved_index_conflict _ _ 9223372036854775807);
      [reflexivity|by eexists|vm_compute; reflexivity]. }
  split; [|split].
  - apply insert_row_conflict. split; [reflexivity|]. split; [by eexists|done].
  - by eexists.
  - intros s'. by rewrite Hraise.
Qed.

(** Witness of C8, amended. *)
Lemma save_conflict_returns_witness :
  ∃ m,
    max_key (db stale_state) = Some m ∧ db stale_state !! (m + 1) = None ∧
    (∀ s1 s2, db s1 = db stale_state →
       insert_row (m + 1) (row_of block_5) s1 ≠ Raise IntegrityError s2) ∧
    (∀ s', save_block_to_db 0%nat stale_state ≠ Raise IntegrityError s') ∧
    (m + 1 ≤ 9223372036854775807 →
       ∃ s', save_block_to_db 0%nat stale_state = Ok tt s') ∧
    (∀ e s', save_block_to_db 0%nat stale_state = Raise e s' →
       e = OverflowError ∧ 9223372036854775807 < m + 1).
Proof.
  apply (save_conflict_returns stale_state 0%nat block_5).
  - reflexivity.
  - vm_compute. reflexivity.
Defined.

(** Witness of C10: [None] on the empty chain, and after the genesis
    block. *)
Lemma new_block_falsy_previous_hash_witness :
  truthy (@PNone whole_floats) = false ∧
  new_block (seconds 1700000000) 100 PNone (boot ∅) = Raise IndexError (boot ∅) ∧
  new_block (seconds 1700000060) 35293 PNone (genesis_state ∅) =
  new_block (seconds 1700000060) 35293
    (PStr (hash (block_value (genesis_state ∅) (blocks (genesis_state ∅) !!! 0%nat))))
    (genesis_state ∅) ∧
  (∃ s', new_block (seconds 1700000060) 35293 PNone (genesis_state ∅) = Ok 1%nat s') ∧
  (∃ s, __init__ (seconds 1700000000) (boot ∅) = Ok tt s).
Proof.
  destruct (new_block_falsy_previous_hash (floats := whole_floats))
    as (_ & Hfalsy & Hinit).
  split; [reflexivity|]. split; [apply (Hfalsy (boot ∅)); reflexivity|].
  destruct (Hfalsy (genesis_state ∅) (seconds 1700000060) 35293 PNone eq_refl)
    as [_ Hlast].
  destruct (Hlast 0%nat eq_refl) as (Hsame & _ & Hreturns).
  split; [exact Hsame|]. split; [exact (Hreturns eq_refl eq_refl)|].
  destruct (Hinit ∅ (seconds 1700000000)) as (_ & _ & Hok).
  exact (Hok eq_refl).
Defined.

(** * Further runs on concrete inputs *)

(** A run on an empty table with one call of [mine]: the chain has two
    blocks. *)
Lemma two_block_run :
  ∃ (s : @State whole_floats) resp,
    mine (Z.to_nat 35294) (seconds 1700000060) (genesis_state ∅) = Ok (resp, 200) s ∧
    reachable ∅ s ∧ is_Some (block_at s 1) ∧ is_Some (block_at s 2).
Proof.
  destruct (genesis_mine_returns ∅ [] (genesis_state ∅) genesis_state_empty_next eq_refl)
    as (resp & s & Hmine).
  destruct (mine_inv ∅ _ _ _ _ _ _ genesis_state_empty Hmine)
    as [Hs Hlen].
  exists s, resp. split; [exact Hmine|]. split; [exact Hs|].
  split; apply (reachable_block_at ∅ s); try exact Hs; rewrite Hlen; simpl; lia.
Qed.

(** Witness of X1. *)
Lemma chain_proofs_least_witness :
  ∃ (s : @State whole_floats) b b',
    reachable ∅ s ∧ block_at s 2 = Some b ∧ block_at s 1 = Some b' ∧
    0 ≤ proof b ∧ valid_proof (proof b') (proof b) = true ∧
    ∀ q, 0 ≤ q → valid_proof (proof b') q = true → proof b ≤ q.
Proof.
  destruct two_block_run as (s & resp & _ & Hs & _ & [b Hb]).
  destruct (chain_proofs_least ∅ s 2 b Hs) as (b' & Hb' & H0 & Hv & Hmin);
    [lia|exact Hb|].
  exists s, b, b'. exact (conj Hs (conj Hb (conj Hb' (conj H0 (conj Hv Hmin))))).
Defined.

(** Witness of X2. *)
Lemma chain_blocks_persisted_witness :
  ∃ b, block_at (genesis_state ∅) 1 = Some b ∧
       db (genesis_state ∅) !! index b =
       Some {| row_timestamp := timestamp b; row_proof := proof b;
               row_previous_hash := previous_hash b |}.
Proof.
  eexists. split; [reflexivity|].
  apply (chain_blocks_persisted ∅ (genesis_state ∅) 1).
  - apply genesis_state_empty.
  - reflexivity.
Defined.

(** Witness of X3. *)
Lemma table_only_grows_witness :
  (∀ k row, stale_table !! k = Some row →
            db (genesis_state stale_table) !! k = Some row) ∧
  size (db (genesis_state stale_table)) =
  (size stale_table + length (chain (genesis_state stale_table)))%nat.
Proof.
  apply (table_only_grows stale_table), genesis_state_reachable.
  vm_compute. reflexivity.
Defined.

(** Witness of X4. *)
Lemma chain_indices_distinct_witness :
  ∃ (s : @State whole_floats) b b',
    reachable ∅ s ∧ block_at s 1 = Some b ∧ block_at s 2 = Some b' ∧
    index b ≠ index b'.
Proof.
  destruct two_block_run as (s & resp & _ & Hs & [b Hb] & [b' Hb']).
  exists s, b, b'. split; [exact Hs|]. split; [exact Hb|]. split; [exact Hb'|].
  apply (chain_indices_distinct ∅ s 1 2 b b' Hs Hb Hb'). lia.
Defined.

(** Witness of X6. *)
Lemma genesis_sentinel_witness :
  ∃ b, block_at (genesis_state ∅) 1 = Some b ∧
       (previous_hash b = PStr (str "1") ↔ 1%nat = 1%nat) ∧
       (1%nat = 1%nat → proof b = 100 ∧ block_transactions (genesis_state ∅) b = []).
Proof.
  eexists. split; [reflexivity|].
  apply (genesis_sentinel ∅ (genesis_state ∅) 1).
  - apply genesis_state_empty.
  - reflexivity.
Defined.

(** Witness of X7. *)
Lemma full_chain_grows_witness :
  ∃ l l',
    full_chain (genesis_state ∅) =
    Done (Json (PDict [(str "chain", PList l);
                       (str "length", PInt (Z.of_nat (length l)))]), 200)
      (genesis_state ∅) ∧
    full_chain (submitted (genesis_state ∅) tx_ab) =
    Done (Json (PDict [(str "chain", PList (l ++ l'));
                       (str "length", PInt (Z.of_nat (length (l ++ l'))))]), 200)
      (submitted (genesis_state ∅) tx_ab).
Proof.
  apply (full_chain_grows ∅).
  - apply genesis_state_empty.
  - apply rtc_once.
    apply (step_new_transaction _ (PStr (str "A")) (PStr (str "B")) (PInt 10) 2).
    rewrite (new_transaction_spec _ _ _ _ 0%nat) by reflexivity. reflexivity.
Defined.

(** Witness of X5: a table with a row of index 1. *)
Lemma genesis_on_table_witness :
  ∃ s b,
    __init__ (seconds 1700000000) (boot {[1 := stale_row]}) = Ok tt s ∧
    length (chain s) = 1%nat ∧ block_at s 1 = Some b ∧
    previous_hash b = PStr (str "1") ∧ proof b = 100 ∧
    ({[1 := stale_row]} : gmap Z Row) !! index b = None.
Proof.
  destruct (genesis_on_table {[1 := stale_row]} (seconds 1700000000))
    as (s & b & Hinit & Hlen & Hb & Hprev & Hproof & _ & _ & _ & _ & _ & Hk & _).
  - intros m [[row Hrow] _]. apply lookup_singleton_Some in Hrow as [<- _]. lia.
  - exists s, b.
    exact (conj Hinit (conj Hlen (conj Hb (conj Hprev (conj Hproof Hk))))).
Defined.

(** Witness of X8. *)
Lemma run_raises_only_overflow_witness :
  (∀ fuel now e s',
     mine fuel now (genesis_state ∅) = Raise e s' →
     e = OverflowError ∧ chain s' = chain (genesis_state ∅) ∧
     db s' = db (genesis_state ∅)) ∧
  (∀ sender recipient amount,
     ∃ i s', new_transaction sender recipient amount (genesis_state ∅) = Ok i s').
Proof.
  destruct (run_raises_only_overflow ∅ (genesis_state ∅) genesis_state_empty)
    as (Hraise & _ & Htx).
  exact (conj Hraise Htx).
Defined.

(** Witness of X9. *)
Lemma mine_answer_persisted_witness :
  ∃ (s' : @State whole_floats) resp,
    mine (Z.to_nat 35294) (seconds 1700000060) (genesis_state ∅) = Ok (resp, 200) s' ∧
    db (genesis_state ∅) !! block_index resp = None ∧
    db s' = <[block_index resp :=
                {| row_timestamp := seconds 1700000060;
                   row_proof := response_proof resp;
                   row_previous_hash := response_previous_hash resp |}]>
              (db (genesis_state ∅)).
Proof.
  destruct two_block_run as (s' & resp & Hmine & _).
  destruct (mine_answer_persisted ∅ _ _ _ _ _ _ genesis_state_empty Hmine)
    as (_ & Hfresh & Hdb & _).
  exists s', resp. exact (conj Hmine (conj Hfresh Hdb)).
Defined.

(** Witness of X10. *)
Lemma new_transaction_index_kept_witness :
  ∃ (s2 : @State whole_floats) resp,
    new_transaction (PStr (str "A")) (PStr (str "B")) (PInt 10) (genesis_state ∅) =
    Ok 2 (submitted (genesis_state ∅) tx_ab) ∧
    mine (Z.to_nat 35294) (seconds 1700000060) (submitted (genesis_state ∅) tx_ab) =
    Ok (resp, 200) s2 ∧
    block_index resp = 2 ∧ tx_ab ∈ response_transactions resp.
Proof.
  assert (new_transaction (PStr (str "A")) (PStr (str "B")) (PInt 10)
            (genesis_state ∅) = Ok 2 (submitted (genesis_state ∅) tx_ab)) as Htx.
  { rewrite (new_transaction_spec _ _ _ _ 0%nat) by reflexivity. reflexivity. }
  destruct (mine_returns (submitted (genesis_state ∅) tx_ab) 0%nat
              (Z.to_nat 35294) (seconds 1700000060) 35293)
    as (resp & s2 & Hmine);
    [reflexivity|lia|vm_compute; reflexivity|lia|vm_compute; reflexivity|].
  destruct (new_transaction_index_kept ∅ _ _ _ _ _ _ _ _ _ _ _
              genesis_state_empty (λ k _, lookup_empty k) Htx Hmine)
    as (_ & Hi & Hin).
  exists s2, resp. exact (conj Htx (conj Hmine (conj Hi Hin))).
Defined.

(** Witness of X11. *)
Lemma new_block_truthy_returns_witness :
  ∃ s' b,
    new_block (seconds 1700000000) 100 (PStr (str "1")) (boot ∅) = Ok 0%nat s' ∧
    chain s' = [0%nat] ∧ blocks s' !! 0%nat = Some b ∧
    previous_hash b = PStr (str "1") ∧ proof b = 100.
Proof.
  destruct (new_block_truthy_returns (boot ∅) (seconds 1700000000) 100
              (PStr (str "1")) eq_refl)
    as (_ & [_ Hreturns] & Hblock).
  destruct (Hreturns (conj eq_refl (conj eq_refl eq_refl))) as (r & s' & Hnew).
  destruct (Hblock r s' Hnew) as (b & Hr & Hchain & Hb & _ & Hprev & Hproof & _).
  exists s', b. rewrite Hr in Hnew.
  exact (conj Hnew (conj Hchain (conj Hb (conj Hprev Hproof)))).
Defined.

(** Witness of X12. *)
Lemma route_created_witness :
  ∃ i s',
    new_transaction_route (PDict body_ab) (genesis_state ∅) =
    Done (Json (PDict [(str "message",
                        PStr (str "Transaksi akan dimasukkan ke dalam blok " ++
                              str_of_int i))]), 201) s' ∧
    pool s' = pool (genesis_state ∅) ++ [tx_ab].
Proof.
  destruct (route_created ∅ (genesis_state ∅) body_ab
              (PStr (str "A")) (PStr (str "B")) (PInt 10))
    as (i & s' & _ & Hroute & Hpool & _).
  - apply genesis_state_empty.
  - vm_compute. reflexivity.
  - vm_compute. reflexivity.
  - vm_compute. reflexivity.
  - exists i, s'. exact (conj Hroute Hpool).
Defined.

(** Witness of X13. *)
Lemma route_incomplete_witness :
  new_transaction_route (PDict body_no_recipient) (genesis_state ∅) =
  Done (Text (str "Data transaksi tidak lengkap"), 400) (genesis_state ∅).
Proof.
  apply (route_incomplete _ body_no_recipient (str "recipient")).
  - apply (bool_decide_unpack _). vm_compute. exact I.
  - apply (bool_decide_unpack _). vm_compute. exact I.
Defined.

(** Witness of X14. *)
Lemma route_not_an_object_witness :
  new_transaction_route body_names (genesis_state ∅) =
  Escaped (ClassError TypeError) (genesis_state ∅).
Proof.
  destruct (route_not_an_object (genesis_state ∅) body_names) as (_ & Hlist & _).
  - intros d. discriminate.
  - apply (Hlist _ eq_refl). intros k Hk. unfold required in Hk.
    apply elem_of_cons in Hk as [->|Hk]; [left|].
    apply elem_of_cons in Hk as [->|Hk]; [right; left|].
    apply elem_of_cons in Hk as [->|Hk]; [right; right; left|].
    by apply elem_of_nil in Hk.
Defined.

(** Witness of X15. *)
Lemma save_keeps_rows_witness :
  ∃ i s',
    save_block_to_db 0%nat stale_state = Ok tt s' ∧
    db stale_state !! i = None ∧
    (∀ k row, db stale_state !! k = Some row → db s' !! k = Some row) ∧
    size (db s') = S (size (db stale_state)).
Proof.
  destruct (save_keeps_rows stale_state 0%nat block_5 eq_refl)
    as ([_ Hreturns] & Hrows & _).
  destruct (Hreturns eq_refl) as [s' Hsave].
  destruct (Hrows s' Hsave) as (i & Hfresh & _ & Hkeep & Hsize & _).
  exists i, s'. exact (conj Hsave (conj Hfresh (conj Hkeep Hsize))).
Defined.

(** Witness of X17. *)
Lemma hash_serialization_ascii_witness :
  printable (json_dumps (PDict genesis_items)) ∧
  encode (json_dumps (PDict genesis_items)) = json_dumps (PDict genesis_items) ∧
  hash (PDict genesis_items) = sha256_hexdigest (json_dumps (PDict genesis_items)).
Proof.
  apply (hash_serialization_ascii (floats := whole_floats)).
  intros n. apply printable_app; [apply str_of_int_printable|].
  unfold printable. apply (bool_decide_unpack _). vm_compute. exact I.
Defined.

(** Witness of X18. *)
Lemma served_chain_verifiable_witness :
  ∃ resp l,
    full_chain (genesis_state ∅) = Done (Json resp, 200) (genesis_state ∅) ∧
    field resp (str "chain") (PList l) ∧
    field resp (str "length") (PInt (Z.of_nat (length l))) ∧
    (∀ v, l !! 0%nat = Some v →
          field v (str "previous_hash") (PStr (str "1")) ∧
          field v (str "proof") (PInt 100)).
Proof.
  eexists _, _. split; [reflexivity|].
  assert (field (PDict [(str "chain", PList (chain_value (genesis_state ∅)));
                        (str "length",
                         PInt (Z.of_nat (length (chain (genesis_state ∅)))))])
            (str "chain") (PList (chain_value (genesis_state ∅)))) as Hfield.
  { eexists. split; [reflexivity|]. vm_compute. reflexivity. }
  split; [exact Hfield|].
  destruct (served_chain_verifiable ∅ (genesis_state ∅) _ _ _ _
              genesis_state_empty eq_refl Hfield)
    as (_ & _ & Hlen & Hfirst & _).
  exact (conj Hlen Hfirst).
Defined.

(** Witness of X19. *)
Lemma hash_item_order_deep_witness :
  json_dumps nested_amount = json_dumps nested_amount_reordered ∧
  hash nested_amount = hash nested_amount_reordered.
Proof.
  apply hash_item_order_deep.
  apply (same_value_dict _
           [(str "amount", PDict [(str "value", PInt 10); (str "unit", PStr (str "IDR"))]);
            (str "sender", PStr (str "A"))]).
  - apply (bool_decide_unpack _). vm_compute. exact I.
  - apply perm_swap.
  - apply Forall2_cons_2; [split; [reflexivity|]|].
    + apply (same_value_dict _
               [(str "unit", PStr (str "IDR")); (str "value", PInt 10)]).
      * apply (bool_decide_unpack _). vm_compute. exact I.
      * apply perm_swap.
      * repeat (apply Forall2_cons_2; [split; [reflexivity|apply same_value_refl]|]).
        apply Forall2_nil_2.
    + apply Forall2_cons_2; [split; [reflexivity|apply same_value_refl]|].
      apply Forall2_nil_2.
Defined.
